(** * filter_playlist.py: fetch and filter an IPTV M3U playlist by group-title

    A shallow embedding of [scripts/filter_playlist.py] and the properties of
    its two functions, [fetch_text] and [filter_playlist].

    Python strings are sequences of Unicode code points: a character is its
    code point in [N], a string is a list of them.  The [Counter] of kept
    entries is a finite map from category label to count. *)

From Stdlib Require Import NArith List Bool Lia Permutation.
From Stdlib Require String Ascii DecimalString.
Import String.StringSyntax.
From stdpp Require Import gmap list sorting.

Delimit Scope string_scope with string.
Local Open Scope N_scope.

(** ** Strings *)

Definition char := N.
Definition str := list char.

(** An ASCII literal as a Python string. *)
Definition py (s : String.string) : str :=
  map Ascii.N_of_ascii (String.list_ascii_of_string s).
Arguments py s%_string.

Definition LF : char := 10.
Definition CR : char := 13.
Definition DQUOTE : char := 34.
Definition HASH : char := 35.
Definition BOM : char := 0xFEFF.

(** [str.isspace] on one character: the code points Python treats as
    whitespace, which [str.strip()] removes. *)
Definition isspace (c : char) : bool :=
  ((9 <=? c) && (c <=? 13)) || ((28 <=? c) && (c <=? 32))
  || (c =? 0x85) || (c =? 0xA0) || (c =? 0x1680)
  || ((0x2000 <=? c) && (c <=? 0x200A))
  || (c =? 0x2028) || (c =? 0x2029) || (c =? 0x202F) || (c =? 0x205F)
  || (c =? 0x3000).

(** The line boundaries of [str.splitlines]. *)
Definition islinebreak (c : char) : bool :=
  ((10 <=? c) && (c <=? 13)) || ((28 <=? c) && (c <=? 30))
  || (c =? 0x85) || (c =? 0x2028) || (c =? 0x2029).

Fixpoint dropwhile (p : char -> bool) (s : str) : str :=
  match s with
  | [] => []
  | c :: s' => if p c then dropwhile p s' else s
  end.

(** [s.lstrip()], [s.rstrip()] and [s.strip()] with no argument. *)
Definition lstrip (s : str) : str := dropwhile isspace s.
Definition rstrip (s : str) : str := rev (dropwhile isspace (rev s)).
Definition strip (s : str) : str := rstrip (lstrip s).

(** [s.lstrip(BOM)], the argument being the one-character string U+FEFF:
    leading byte-order marks removed. *)
Definition lstrip_bom (s : str) : str := dropwhile (N.eqb BOM) s.

(** [s.startswith(prefix)]. *)
Fixpoint startswith (prefix s : str) : bool :=
  match prefix, s with
  | [], _ => true
  | _ :: _, [] => false
  | a :: prefix', b :: s' => (a =? b) && startswith prefix' s'
  end.

(** [needle in hay]: substring containment. *)
Fixpoint contains (needle hay : str) : bool :=
  startswith needle hay ||
  match hay with
  | [] => false
  | _ :: hay' => contains needle hay'
  end.

(** [text.splitlines()]: lines end at a line boundary, CR LF counts as one
    boundary, and a last line without a boundary is kept when it is not
    empty.  [cur] is the line read so far. *)
Fixpoint splitlines_from (cur : str) (s : str) : list str :=
  match s with
  | [] => match cur with [] => [] | _ => [cur] end
  | c :: s' =>
      if islinebreak c then
        match s' with
        | c' :: s'' =>
            if (c =? CR) && (c' =? LF)
            then cur :: splitlines_from [] s''
            else cur :: splitlines_from [] s'
        | [] => cur :: splitlines_from [] s'
        end
      else splitlines_from (cur ++ [c]) s'
  end.

Definition splitlines (text : str) : list str := splitlines_from [] text.

(** [sep.join(parts)]. *)
Fixpoint join (sep : str) (parts : list str) : str :=
  match parts with
  | [] => []
  | [x] => x
  | x :: rest => x ++ sep ++ join sep rest
  end.

(** ** The group-title pattern *)

(** The literal part of [GROUP_TITLE_PATTERN]: the text group-title= and an
    opening double quote. *)
Definition GROUP_TITLE_KEY : str := py "group-title=" ++ [DQUOTE].

(** [s] with [prefix] removed, when [s] starts with it. *)
Fixpoint after_prefix (prefix s : str) : option str :=
  match prefix, s with
  | [], _ => Some s
  | _ :: _, [] => None
  | a :: prefix', b :: s' => if a =? b then after_prefix prefix' s' else None
  end.

(** The characters of [s] before its first double quote: what the group of
    the pattern (any run of characters other than a double quote, followed by
    a double quote) captures, if [s] has a double quote at all. *)
Fixpoint until_quote (s : str) : option str :=
  match s with
  | [] => None
  | c :: s' =>
      if c =? DQUOTE then Some []
      else match until_quote s' with
           | Some cap => Some (c :: cap)
           | None => None
           end
  end.

(** The pattern matched at the start of [s]: group 1 of the match. *)
Definition match_here (s : str) : option str :=
  match after_prefix GROUP_TITLE_KEY s with
  | Some rest => until_quote rest
  | None => None
  end.

(** [GROUP_TITLE_PATTERN.search(s)]: group 1 of the leftmost match. *)
Fixpoint search (s : str) : option str :=
  match match_here s with
  | Some cap => Some cap
  | None => match s with
            | [] => None
            | _ :: s' => search s'
            end
  end.

Definition extract_group_title (extinf_line : str) : str :=
  match search extinf_line with
  | Some group1 => group1
  | None => []
  end.

Local Close Scope N_scope.

(** ** fetch_text *)

(** The exceptions one attempt can raise, by class: the three the loop
    catches, and any other, which it lets through.  [exn_text] is what
    [str(exc)] gives. *)
Inductive exn_class := URLError | TimeoutError | OSError | OtherError.

Record exn := Exn { class_of : exn_class; exn_text : str }.

Definition is_caught (exc : exn) : bool :=
  match class_of exc with
  | URLError | TimeoutError | OSError => true
  | OtherError => false
  end.

(** One attempt on a source: the bytes read, or an exception. *)
Inductive attempt :=
| Response (raw : list N)
| Raises (exc : exn).

(** How [fetch_text] ends: it returns the text and the source, raises its
    own [RuntimeError] (with the [__cause__] set by [raise ... from]), or an
    exception of an attempt goes through uncaught. *)
Inductive fetch_result :=
| Returned (text : str) (url : str)
| RuntimeError (message : str) (cause : option exn)
| Propagated (exc : exn).

Section Fetcher.

(** The network: [urlopen url timeout] builds the request with the fixed
    headers, opens it and reads the response, in some state of the world,
    and leaves a new one. *)
Variable World : Type.
Variable urlopen : str -> nat -> World -> attempt * World.

(** [raw.decode] with the codec utf-8-sig and errors replaced: total. *)
Variable decode : list N -> str.

Variable timeout : nat.

(** The two [raise] statements after the loop. *)
Definition raise_after_loop (last_error : option exn) : fetch_result :=
  match last_error with
  | None => RuntimeError (py "no source URLs were provided") None
  | Some exc =>
      RuntimeError (py "failed to fetch source playlist: " ++ exn_text exc)
                   (Some exc)
  end.

(** The [for url in urls] loop and what follows it. *)
Fixpoint fetch_loop (urls : list str) (last_error : option exn) (w : World)
  : fetch_result * World :=
  match urls with
  | [] => (raise_after_loop last_error, w)
  | url :: rest =>
      match urlopen url timeout w with
      | (Response raw, w') => (Returned (decode raw) url, w')
      | (Raises exc, w') =>
          if is_caught exc then fetch_loop rest (Some exc) w'
          else (Propagated exc, w')
      end
  end.

Definition fetch_text (urls : list str) (w : World) : fetch_result * World :=
  fetch_loop urls None w.

(** Every source of [urls] is attempted once, in order, from the world [w]
    to the world [w'], and each attempt raises an exception of a caught
    class; [last'] is the last one recorded, starting from [last]. *)
Inductive attempts_fail
  : list str -> World -> option exn -> World -> option exn -> Prop :=
| attempts_fail_nil (w : World) (last : option exn) :
    attempts_fail [] w last w last
| attempts_fail_cons (url : str) (urls : list str) (w w' w'' : World)
                     (exc : exn) (last last' : option exn) :
    urlopen url timeout w = (Raises exc, w') ->
    is_caught exc = true ->
    attempts_fail urls w' (Some exc) w'' last' ->
    attempts_fail (url :: urls) w last w'' last'.

End Fetcher.

Arguments fetch_loop {World} urlopen decode timeout urls last_error w.
Arguments fetch_text {World} urlopen decode timeout urls w.
Arguments attempts_fail {World} urlopen timeout _ _ _ _ _.

(** A scripted network for the examples: the world is the log of the
    sources attempted so far; the source [good] answers with [body], every
    other source fails with a [URLError] naming it. *)
Definition scripted_urlopen (good : str) (body : list N)
  (url : str) (timeout : nat) (log : list str) : attempt * list str :=
  (if bool_decide (url = good) then Response body
   else Raises (Exn URLError (py "unreachable: " ++ url)),
   log ++ [url]).

(** A decoder for the examples: the bytes of an ASCII body are its text. *)
Definition ascii_decode (raw : list N) : str := raw.

(** ** filter_playlist *)

Definition EXTM3U : str := py "#EXTM3U".
Definition EXTINF : str := py "#EXTINF".

(** The kept counts: a [Counter] keyed by category label. *)
Abbreviation Counter := (gmap str nat).

(** [counter[key] += 1]; a key that is absent counts as 0. *)
Definition increment (key : str) (counter : Counter) : Counter :=
  <[key := S (default 0 (counter !! key))]> counter.

(** The first loop: the header is the first line that, with leading
    byte-order marks and surrounding whitespace removed, starts with
    [#EXTM3U]; the bare token when there is none. *)
Fixpoint find_header (lines : list str) : str :=
  match lines with
  | [] => EXTM3U
  | line :: rest =>
      let normalized := strip (lstrip_bom line) in
      if startswith EXTM3U normalized then normalized else find_header rest
  end.

(** [any(keyword in group_title for keyword in keywords)]. *)
Definition should_keep (keywords : list str) (group_title : str) : bool :=
  existsb (fun keyword => contains keyword group_title) keywords.

(** Truth value of [stream_url]: [None] and the empty string are false. *)
Definition truthy (stream_url : option str) : bool :=
  match stream_url with
  | Some (_ :: _) => true
  | _ => false
  end.

(** The inner loop, run over [rest = lines[next_index:]]: blank lines and
    lines starting with [#] are passed over; the first other line, stripped,
    is the stream URL.  Returns [next_index] and [stream_url] as the loop
    leaves them. *)
Fixpoint find_stream_url (rest : list str) (next_index : nat)
  : nat * option str :=
  match rest with
  | [] => (next_index, None)
  | raw :: rest' =>
      let candidate := strip raw in
      match candidate with
      | [] => find_stream_url rest' (S next_index)
      | _ :: _ =>
          if startswith [HASH] candidate
          then find_stream_url rest' (S next_index)
          else (next_index, Some candidate)
      end
  end.

Record state := State {
  index : nat;
  output_lines : list str;
  kept_by_group : Counter
}.

(** One iteration of the main loop, at [raw = lines[index]]. *)
Definition loop_body (lines keywords : list str) (raw : str) (st : state)
  : state :=
  let line := strip raw in
  if negb (startswith EXTINF line) then
    State (S (index st)) (output_lines st) (kept_by_group st)
  else
    let group_title := extract_group_title line in
    let keep := should_keep keywords group_title in
    let (next_index, stream_url) :=
      find_stream_url (drop (S (index st)) lines) (S (index st)) in
    let (out, kept) :=
      if truthy stream_url && keep then
        (output_lines st ++ [line; default [] stream_url],
         increment group_title (kept_by_group st))
      else (output_lines st, kept_by_group st) in
    State (if truthy stream_url then S next_index else S (index st)) out kept.

(** The main loop, [while index < len(lines)], with a bound on the number of
    iterations: [None] when the bound is reached before the loop exits.  The
    loop test and the read of [lines[index]] are one lookup. *)
Fixpoint main_loop (fuel : nat) (lines keywords : list str) (st : state)
  : option state :=
  match lines !! index st with
  | None => Some st
  | Some raw =>
      match fuel with
      | O => None
      | S fuel' => main_loop fuel' lines keywords (loop_body lines keywords raw st)
      end
  end.

Definition filter_playlist_fuel (fuel : nat) (text : str) (keywords : list str)
  : option (str * Counter) :=
  let lines := splitlines text in
  let header := find_header lines in
  match main_loop fuel lines keywords (State 0 [header] ∅) with
  | Some st => Some (join [LF] (output_lines st) ++ [LF], kept_by_group st)
  | None => None
  end.

(** One iteration per line is enough (see [main_loop_terminates]). *)
Definition filter_playlist (text : str) (keywords : list str)
  : option (str * Counter) :=
  filter_playlist_fuel (length (splitlines text)) text keywords.

(** ** Vocabulary of the properties *)

(** A substantive line: not blank and not a comment, once stripped.  The
    inner loop stops at the first one. *)
Definition substantive (raw : str) : bool :=
  match strip raw with
  | [] => false
  | _ :: _ => negb (startswith [HASH] (strip raw))
  end.

(** A directive line: stripped, it starts with [#EXTINF]. *)
Definition is_directive (raw : str) : bool := startswith EXTINF (strip raw).

(** A header line: without leading byte-order marks and surrounding
    whitespace, it starts with [#EXTM3U]. *)
Definition is_header_line (raw : str) : bool :=
  startswith EXTM3U (strip (lstrip_bom raw)).

(** [s] between double quotes. *)
Definition quoted (s : str) : str := [DQUOTE] ++ s ++ [DQUOTE].

(** The example playlist of the specification and its filtered form. *)
Definition example_playlist : str :=
  py "#EXTM3U" ++ [LF]
  ++ py "#EXTINF:-1 group-title=" ++ quoted (py "A") ++ py ",X" ++ [LF]
  ++ py "http://x" ++ [LF]
  ++ py "#EXTINF:-1 group-title=" ++ quoted (py "B") ++ py ",Y" ++ [LF]
  ++ py "http://y" ++ [LF].

Definition example_filtered : str :=
  py "#EXTM3U" ++ [LF]
  ++ py "#EXTINF:-1 group-title=" ++ quoted (py "A") ++ py ",X" ++ [LF]
  ++ py "http://x" ++ [LF].

(** The group-title pattern matches in [line] after [pre], capturing
    [group]: the key, then [group], free of double quotes, then a closing
    double quote. *)
Definition matches_at (line pre group : str) : Prop :=
  exists post,
    line = pre ++ GROUP_TITLE_KEY ++ group ++ [DQUOTE] ++ post
    /\ Forall (fun c => c <> DQUOTE) group.

(** The label contains one of the keywords as a substring. *)
Definition label_matches (keywords : list str) (label : str) : Prop :=
  exists keyword pre post, keyword ∈ keywords /\ label = pre ++ keyword ++ post.

(** A directive line with the label CCTV-News, and its stream URL. *)
Definition news_directive : str :=
  py "#EXTINF:-1 group-title=" ++ quoted (py "CCTV-News") ++ py ",One".
Definition news_url : str := py "http://news".

(** The example playlist with blanks around the directive and URL lines. *)
Definition padded_directive : str :=
  py "  #EXTINF:-1 group-title=" ++ quoted (py "A") ++ py ",X  ".
Definition padded_url : str := py "  http://x ".
Definition padded_playlist : str :=
  py "#EXTM3U" ++ [LF] ++ padded_directive ++ [LF] ++ padded_url ++ [LF].

(** The premise of C1 as the specification words it: [rest], the lines
    after a directive line, has no substantive line before its next
    directive line or its end. *)
Fixpoint no_url_before_next_directive (rest : list str) : bool :=
  match rest with
  | [] => true
  | raw :: rest' =>
      is_directive raw
      || (negb (substantive raw) && no_url_before_next_directive rest')
  end.

(** Two directive lines in a row, then one URL. *)
Definition directive_A : str :=
  py "#EXTINF:-1 group-title=" ++ quoted (py "A") ++ py ",X".
Definition directive_B : str :=
  py "#EXTINF:-1 group-title=" ++ quoted (py "B") ++ py ",Y".
Definition orphan_playlist : str :=
  py "#EXTM3U" ++ [LF] ++ directive_A ++ [LF] ++ directive_B ++ [LF]
  ++ py "http://y" ++ [LF].

(** A complete entry, then a directive line followed by a comment and a
    blank line only. *)
Definition trailing_playlist : list str :=
  [py "#EXTM3U"; directive_A; py "http://x"; directive_B; py "# end"; py "  "].

(** The entries kept by a scan, each as the two lines appended for it, and
    the output lines and kept counts they make. *)
Definition entry_lines (entries : list (str * str)) : list str :=
  flat_map (fun e => [fst e; snd e]) entries.

Definition count_entries (entries : list (str * str)) (counter : Counter)
  : Counter :=
  fold_left (fun c e => increment (extract_group_title (fst e)) c) entries counter.

Definition no_linebreak (s : str) : Prop :=
  Forall (fun c => islinebreak c = false) s.

(** What holds of every entry [filter_playlist] appends: both lines are
    stripped and free of line boundaries, the first is a directive line
    whose label matches a keyword, the second a substantive line. *)
Definition kept_entry (keywords : list str) (e : str * str) : Prop :=
  strip (fst e) = fst e
  /\ startswith EXTINF (fst e) = true
  /\ should_keep keywords (extract_group_title (fst e)) = true
  /\ strip (snd e) = snd e
  /\ substantive (snd e) = true
  /\ no_linebreak (fst e)
  /\ no_linebreak (snd e).

(** What holds of the header [filter_playlist] emits. *)
Definition emitted_header (header : str) : Prop :=
  strip header = header
  /\ startswith EXTM3U header = true
  /\ no_linebreak header.

(** ** Vocabulary for the entries of a playlist *)

(** The pairing of directive lines with stream URLs does not depend on the
    keywords: [all_entries] follows the cursor of the main loop from line
    [i] and lists every directive line that finds a stream URL, with that
    URL, both stripped.  [fuel] bounds the iterations as in [main_loop]. *)
Fixpoint all_entries (fuel : nat) (lines : list str) (i : nat)
  : list (str * str) :=
  match fuel with
  | O => []
  | S fuel' =>
      match lines !! i with
      | None => []
      | Some raw =>
          if startswith EXTINF (strip raw) then
            match find_stream_url (drop (S i) lines) (S i) with
            | (next_index, Some url) =>
                (strip raw, url) :: all_entries fuel' lines (S next_index)
            | (_, None) => all_entries fuel' lines (S i)
            end
          else all_entries fuel' lines (S i)
      end
  end.

Definition entries_of (text : str) : list (str * str) :=
  all_entries (length (splitlines text)) (splitlines text) 0.

(** The category label of an entry, and the keep test on it. *)
Definition label_of (e : str * str) : str := extract_group_title (fst e).

Definition keeps (keywords : list str) (e : str * str) : bool :=
  should_keep keywords (label_of e).

(** The number of entries with a given label. *)
Definition label_count (entries : list (str * str)) (label : str) : nat :=
  length (List.filter (fun e => bool_decide (label_of e = label)) entries).

(** What holds of every entry a scan pairs, kept or not. *)
Definition paired_entry (e : str * str) : Prop :=
  strip (fst e) = fst e
  /\ startswith EXTINF (fst e) = true
  /\ strip (snd e) = snd e
  /\ substantive (snd e) = true
  /\ no_linebreak (fst e)
  /\ no_linebreak (snd e).

(** [sum(kept_by_group.values())], as [main] computes the total. *)
Definition total_entries (kept : Counter) : nat :=
  map_fold (fun _ count total => count + total) 0 kept.

(** ** Vocabulary for the attempts of fetch_text *)

(** A network that also keeps the log of the sources attempted: the world is
    paired with the log, and every attempt appends its source. *)
Definition logged {World : Type} (urlopen : str -> nat -> World -> attempt * World)
  (url : str) (timeout : nat) (wl : World * list str)
  : attempt * (World * list str) :=
  let (outcome, w') := urlopen url timeout (fst wl) in
  (outcome, (w', snd wl ++ [url])).

(** ** main *)

Definition DEFAULT_SOURCE_URLS : list str :=
  [py "https://raw.githubusercontent.com/Jsnzkpg/Jsnzkpg/Jsnzkpg/Jsnzkpg1.m3u";
   py "https://gh-proxy.org/https://raw.githubusercontent.com/Jsnzkpg/Jsnzkpg/Jsnzkpg/Jsnzkpg1.m3u"].

(** The two default keywords, by code point: each is a bracketed two
    character tag followed by five characters. *)
Definition DEFAULT_GROUP_KEYWORDS : list str :=
  [[0x5B; 0x4E09; 0x7F51; 0x5D; 0x592E; 0x536B; 0x89C6; 0x76F4; 0x64AD]%N;
   [0x5B; 0x8054; 0x901A; 0x5D; 0x54AA; 0x89C6; 0x754C; 0x76F4; 0x64AD]%N].

(** What [parse_args] returns: the two repeatable options are [None] when
    not given, and the list of the values given otherwise. *)
Record namespace := Namespace {
  source_urls : option (list str);
  group_keywords : option (list str);
  output : str
}.

(** [given or fallback] on an optional list: [None] and the empty list are
    false. *)
Definition or_default (given : option (list str)) (fallback : list str)
  : list str :=
  match given with
  | Some (x :: rest) => x :: rest
  | _ => fallback
  end.

(** A count in an f-string: its decimal digits. *)
Definition str_of_nat (n : nat) : str :=
  py (DecimalString.NilEmpty.string_of_uint (Nat.to_uint n)).

(** [a <= b] on strings: code point by code point, a proper prefix first. *)
Fixpoint str_leb (a b : str) : bool :=
  match a, b with
  | [], _ => true
  | _ :: _, [] => false
  | x :: a', y :: b' =>
      match N.compare x y with
      | Lt => true
      | Eq => str_leb a' b'
      | Gt => false
      end
  end.

(** [a <= b] on the items of the counter, as tuples: by label, then by
    count. *)
Definition item_leb (a b : str * nat) : bool :=
  if bool_decide (fst a = fst b) then snd a <=? snd b
  else str_leb (fst a) (fst b).

Definition item_le (a b : str * nat) : Prop := item_leb a b = true.

#[global] Instance item_le_dec (a b : str * nat) : Decision (item_le a b) :=
  decide (item_leb a b = true).

(** [sorted(kept_by_group.items())]. *)
Definition sorted_items (kept : Counter) : list (str * nat) :=
  merge_sort item_le (map_to_list kept).

Inductive stream := Stdout | Stderr.

(** The lines [main] prints once the file is written, in order, each with
    the stream it goes to. *)
Definition summary_lines (selected_url output_path : str) (kept : Counter)
  : list (stream * str) :=
  let total := total_entries kept in
  [(Stdout, py "source: " ++ selected_url);
   (Stdout, py "output: " ++ output_path);
   (Stdout, py "kept entries: " ++ str_of_nat total)]
  ++ map (fun item =>
            (Stdout, py "  " ++ fst item ++ py ": " ++ str_of_nat (snd item)))
         (sorted_items kept)
  ++ (if total =? 0
      then [(Stderr,
             py "warning: no entries matched the configured group keywords")]
      else []).

(** What ends [main] early: the [RuntimeError] of [fetch_text], or an
    exception that some call let through. *)
Inductive raised :=
| RaisedRuntimeError (message : str) (cause : option exn)
| RaisedExn (exc : exn).

(** How [main] ends.  [Diverged] stands for a scan of [filter_playlist]
    that reaches its iteration bound. *)
Inductive main_result :=
| Completed (code : nat)
| Failed (r : raised)
| Diverged.

Section Main.

(** The world [main] acts on: the network of [fetch_text], the file
    system and the console.  [mkdir_parent path] creates the parent directory
    of [path] with its own parents, accepting one that exists;
    [write_text path text] writes the file; [print s line] prints one line
    to a stream.  Each returns the exception it raises, if any.
    [path_text] is the text of a path in an f-string. *)
Variable World : Type.
Variable urlopen : str -> nat -> World -> attempt * World.
Variable decode : list N -> str.
Variable path_text : str -> str.
Variable mkdir_parent : str -> World -> option exn * World.
Variable write_text : str -> str -> World -> option exn * World.
Variable print : stream -> str -> World -> option exn * World.

Fixpoint print_all (lines : list (stream * str)) (w : World)
  : option exn * World :=
  match lines with
  | [] => (None, w)
  | (s, line) :: rest =>
      match print s line w with
      | (Some exc, w') => (Some exc, w')
      | (None, w') => print_all rest w'
      end
  end.

Definition main (args : namespace) (w : World) : main_result * World :=
  let urls := or_default (source_urls args) DEFAULT_SOURCE_URLS in
  let keywords := or_default (group_keywords args) DEFAULT_GROUP_KEYWORDS in
  match fetch_text urlopen decode 30 urls w with
  | (RuntimeError message cause, w1) =>
      (Failed (RaisedRuntimeError message cause), w1)
  | (Propagated exc, w1) => (Failed (RaisedExn exc), w1)
  | (Returned text selected_url, w1) =>
      match filter_playlist text keywords with
      | None => (Diverged, w1)
      | Some (filtered_text, kept) =>
          match mkdir_parent (output args) w1 with
          | (Some exc, w2) => (Failed (RaisedExn exc), w2)
          | (None, w2) =>
              match write_text (output args) filtered_text w2 with
              | (Some exc, w3) => (Failed (RaisedExn exc), w3)
              | (None, w3) =>
                  match print_all (summary_lines selected_url
                                                 (path_text (output args)) kept)
                                  w3 with
                  | (Some exc, w4) => (Failed (RaisedExn exc), w4)
                  | (None, w4) => (Completed 0, w4)
                  end
              end
          end
      end
  end.

End Main.

Arguments print_all {World} print lines w.
Arguments main {World} urlopen decode path_text mkdir_parent write_text print args w.

(** A scripted world for the examples: the world is the log of what was
    done; the network is [scripted_urlopen], and the file system and the
    console accept everything. *)
Inductive event :=
| Opened (url : str)
| MadeParent (path : str)
| Wrote (path text : str)
| Printed (s : stream) (line : str).

Definition scripted_main (good : str) (body : list N) (args : namespace)
  : main_result * list event :=
  main (fun url timeout log =>
          (fst (scripted_urlopen good body url timeout []), log ++ [Opened url]))
       ascii_decode
       (fun path => path)
       (fun path log => (None, log ++ [MadeParent path]))
       (fun path text log => (None, log ++ [Wrote path text]))
       (fun s line log => (None, log ++ [Printed s line]))
       args [].


(** The warning line of [main]. *)
Definition WARNING : stream * str :=
  (Stderr, py "warning: no entries matched the configured group keywords").

(** ** Vocabulary for the header line *)

(** [header] is what a header line carries, said without the code's
    stripping functions: [line] is a run of byte-order marks, a run of
    whitespace, [header], and a run of whitespace; [header] starts with the
    token [#EXTM3U] and ends in a character that is not whitespace. *)
Definition header_form (line header : str) : Prop :=
  exists boms before after body final,
    line = boms ++ before ++ header ++ after
    /\ Forall (fun c => c = BOM) boms
    /\ Forall (fun c => isspace c = true) before
    /\ Forall (fun c => isspace c = true) after
    /\ startswith EXTM3U header = true
    /\ header = body ++ [final]
    /\ isspace final = false.

(** A playlist whose header line is behind two byte-order marks and blanks,
    on the second line, with no directive line. *)
Definition bom_playlist : str :=
  py "# list" ++ [LF] ++ [BOM; BOM] ++ py "  #EXTM3U x=1 " ++ [LF]
  ++ py "http://x" ++ [LF].

(** A complete entry, then a directive line followed by a comment, another
    directive line and a blank line. *)
Definition trailing_directives : list str :=
  [py "#EXTM3U"; directive_A; py "http://x"; directive_B; py "# end";
   directive_A; py "  "].

(** A network for the examples on which one source is not a valid URL:
    building the request for [invalid] raises an exception of no caught
    class; [good] answers with [body]; every other source is unreachable. *)
Definition strict_urlopen (good invalid : str) (body : list N)
  (url : str) (timeout : nat) (log : list str) : attempt * list str :=
  (if bool_decide (url = good) then Response body
   else if bool_decide (url = invalid)
        then Raises (Exn OtherError (py "unknown url type: " ++ url))
        else Raises (Exn URLError (py "unreachable: " ++ url)),
   log ++ [url]).

(** ** Vocabulary for the effects of main *)

(** The world of [main] with a log: each call on the network, the file
    system or the console appends the event of its attempt to the log and
    otherwise does what the call does. *)
Definition traced_urlopen {World : Type}
  (urlopen : str -> nat -> World -> attempt * World)
  (url : str) (timeout : nat) (wl : World * list event)
  : attempt * (World * list event) :=
  let (outcome, w') := urlopen url timeout (fst wl) in
  (outcome, (w', snd wl ++ [Opened url])).

Definition traced_mkdir {World : Type}
  (mkdir_parent : str -> World -> option exn * World)
  (path : str) (wl : World * list event) : option exn * (World * list event) :=
  let (outcome, w') := mkdir_parent path (fst wl) in
  (outcome, (w', snd wl ++ [MadeParent path])).

Definition traced_write {World : Type}
  (write_text : str -> str -> World -> option exn * World)
  (path text : str) (wl : World * list event)
  : option exn * (World * list event) :=
  let (outcome, w') := write_text path text (fst wl) in
  (outcome, (w', snd wl ++ [Wrote path text])).

Definition traced_print {World : Type}
  (print : stream -> str -> World -> option exn * World)
  (s : stream) (line : str) (wl : World * list event)
  : option exn * (World * list event) :=
  let (outcome, w') := print s line (fst wl) in
  (outcome, (w', snd wl ++ [Printed s line])).

(** The event of printing a line of the summary. *)
Definition printed (line : stream * str) : event := Printed (fst line) (snd line).

(** * Properties *)

(** ** The string primitives on small inputs *)

Example splitlines_crlf :
  splitlines (py "a" ++ [CR; LF] ++ py "b" ++ [LF; LF] ++ py "c")
  = [py "a"; py "b"; []; py "c"].
Proof. reflexivity. Qed.

Example splitlines_empty : splitlines [] = [].
Proof. reflexivity. Qed.

Example splitlines_newline : splitlines [LF] = [[]].
Proof. reflexivity. Qed.

Example splitlines_cr_crlf :
  splitlines (py "a" ++ [CR; CR; LF] ++ py "b") = [py "a"; []; py "b"].
Proof. reflexivity. Qed.

Example strip_both_ends : strip (9 :: py "  ab c " ++ [0xA0; 0x3000])%N = py "ab c".
Proof. reflexivity. Qed.

Example strip_keeps_bom : strip (py " " ++ [BOM] ++ py "x") = [BOM] ++ py "x".
Proof. reflexivity. Qed.

Example lstrip_bom_twice : lstrip_bom ([BOM; BOM] ++ py " x") = py " x".
Proof. reflexivity. Qed.

Example join_lines : join [LF] [py "a"; py "b"] = py "a" ++ [LF] ++ py "b".
Proof. reflexivity. Qed.

Example group_title_first :
  extract_group_title
    (py "#EXTINF:-1 group-title=" ++ quoted (py "a")
        ++ py " group-title=" ++ quoted (py "b"))
  = py "a".
Proof. reflexivity. Qed.

Example group_title_unclosed :
  extract_group_title (py "#EXTINF:-1 group-title=" ++ [DQUOTE] ++ py "abc") = [].
Proof. reflexivity. Qed.

Example group_title_nested :
  extract_group_title
    (py "group-title=" ++ [DQUOTE] ++ py "group-title=" ++ quoted (py "x"))
  = py "group-title=".
Proof. reflexivity. Qed.

Example group_title_empty :
  extract_group_title (py "#EXTINF:-1 group-title=" ++ quoted [] ++ py ",X") = [].
Proof. reflexivity. Qed.

(** ** Strings *)

Lemma startswith_app (prefix rest : str) : startswith prefix (prefix ++ rest) = true.
Proof.
  induction prefix as [|a prefix IH]; simpl; [reflexivity|].
  now rewrite N.eqb_refl, IH.
Qed.

Lemma startswith_inv (prefix s : str) :
  startswith prefix s = true -> exists rest, s = prefix ++ rest.
Proof.
  revert s; induction prefix as [|a prefix IH]; intros s H; simpl in *.
  - now exists s.
  - destruct s as [|b s]; [discriminate|].
    apply andb_true_iff in H as [Hab H]. apply N.eqb_eq in Hab as ->.
    destruct (IH _ H) as [rest ->]. now exists rest.
Qed.

Lemma contains_startswith (needle hay : str) :
  startswith needle hay = true -> contains needle hay = true.
Proof. intros H. destruct hay; simpl; now rewrite H. Qed.

Lemma contains_app (needle pre post : str) :
  contains needle (pre ++ needle ++ post) = true.
Proof.
  induction pre as [|c pre IH].
  - apply contains_startswith. apply (startswith_app needle post).
  - simpl. rewrite IH. apply orb_true_r.
Qed.

Lemma contains_inv (needle hay : str) :
  contains needle hay = true -> exists pre post, hay = pre ++ needle ++ post.
Proof.
  induction hay as [|c hay IH]; simpl; intros H.
  - rewrite orb_false_r in H. destruct (startswith_inv _ _ H) as [rest E].
    now exists [], rest.
  - apply orb_true_iff in H as [H|H].
    + destruct (startswith_inv _ _ H) as [rest E]. now exists [], rest.
    + destruct (IH H) as (pre & post & ->). now exists (c :: pre), post.
Qed.

Lemma contains_empty_needle (hay : str) : contains [] hay = true.
Proof. destruct hay; reflexivity. Qed.

(** ** Termination of the scan *)

(** What the inner loop leaves: either the first substantive line of [rest],
    with everything before it blank or a comment, or nothing, with all of
    [rest] passed over. *)
Lemma find_stream_url_cases (rest : list str) (n : nat) :
  (exists skipped raw rest',
      rest = skipped ++ raw :: rest'
      /\ Forall (fun r => substantive r = false) skipped
      /\ substantive raw = true
      /\ find_stream_url rest n = (n + length skipped, Some (strip raw)))
  \/ (Forall (fun r => substantive r = false) rest
      /\ find_stream_url rest n = (n + length rest, None)).
Proof.
  revert n; induction rest as [|raw rest IH]; intros n.
  - right. split; [apply Forall_nil_2|]. simpl. f_equal. lia.
  - destruct (substantive raw) eqn:Hs.
    + left. exists [], raw, rest.
      split; [reflexivity|]. split; [apply Forall_nil_2|]. split; [assumption|].
      unfold substantive in Hs. cbn [find_stream_url].
      destruct (strip raw); [discriminate|].
      apply negb_true_iff in Hs. rewrite Hs. simpl. f_equal. lia.
    + assert (Hstep : find_stream_url (raw :: rest) n = find_stream_url rest (S n)).
      { unfold substantive in Hs. cbn [find_stream_url].
        destruct (strip raw); [reflexivity|].
        apply negb_false_iff in Hs. now rewrite Hs. }
      rewrite Hstep.
      destruct (IH (S n)) as [(skipped & raw' & rest' & -> & Hsk & Hraw & Hf)|[Hall Hf]].
      * left. exists (raw :: skipped), raw', rest'.
        split; [reflexivity|]. split; [now apply Forall_cons_2|].
        split; [assumption|]. rewrite Hf. simpl. f_equal. lia.
      * right. split; [now apply Forall_cons_2|]. rewrite Hf. simpl. f_equal. lia.
Qed.

Lemma substantive_truthy (raw : str) :
  substantive raw = true -> truthy (Some (strip raw)) = true.
Proof. unfold substantive. simpl. destruct (strip raw); [discriminate|reflexivity]. Qed.

(** The cursor after one iteration: one past the line just read, or one past
    the stream URL that was consumed. *)
Lemma loop_body_index (lines keywords : list str) (raw : str) (st : state) :
  index st < index (loop_body lines keywords raw st).
Proof.
  unfold loop_body. destruct (negb _); simpl; [lia|].
  destruct (find_stream_url_cases (drop (S (index st)) lines) (S (index st)))
    as [(skipped & raw' & rest' & _ & _ & Hraw & ->)|[_ ->]].
  - rewrite (substantive_truthy _ Hraw). destruct (_ && _); simpl; lia.
  - simpl. lia.
Qed.

Lemma main_loop_terminates (lines keywords : list str) (fuel : nat) (st : state) :
  length lines - index st <= fuel ->
  exists st', main_loop fuel lines keywords st = Some st'.
Proof.
  revert st; induction fuel as [|fuel IH]; intros st Hfuel; simpl.
  - destruct (lines !! index st) eqn:E; [|eauto].
    apply lookup_lt_Some in E. lia.
  - destruct (lines !! index st) as [raw|] eqn:E; [|eauto].
    apply IH. pose proof (loop_body_index lines keywords raw st). lia.
Qed.

Lemma main_loop_fuel_mono (lines keywords : list str) (fuel fuel' : nat) (st st' : state) :
  main_loop fuel lines keywords st = Some st' -> fuel <= fuel' ->
  main_loop fuel' lines keywords st = Some st'.
Proof.
  revert fuel' st; induction fuel as [|fuel IH]; intros fuel' st H Hle.
  - simpl in H. destruct fuel'; simpl; destruct (lines !! index st); congruence.
  - destruct fuel' as [|fuel']; [lia|]. simpl in *.
    destruct (lines !! index st); [|assumption]. apply IH; [assumption|lia].
Qed.

(** At exit the cursor is past the last line. *)
Lemma main_loop_exit (lines keywords : list str) (fuel : nat) (st st' : state) :
  main_loop fuel lines keywords st = Some st' -> lines !! index st' = None.
Proof.
  revert st; induction fuel as [|fuel IH]; intros st; simpl;
    destruct (lines !! index st) eqn:E; try congruence; eauto.
Qed.

(** Loop invariants: what every iteration preserves holds at exit. *)
Lemma main_loop_invariant (Inv : state -> Prop) (lines keywords : list str) :
  (forall st raw, lines !! index st = Some raw -> Inv st ->
                  Inv (loop_body lines keywords raw st)) ->
  forall fuel st st',
    Inv st -> main_loop fuel lines keywords st = Some st' -> Inv st'.
Proof.
  intros Hstep fuel; induction fuel as [|fuel IH]; intros st st' HI; simpl;
    destruct (lines !! index st) eqn:E; try congruence; eauto.
Qed.

(** The three ways one iteration can go. *)
Lemma loop_body_skip (lines keywords : list str) (raw : str) (st : state) :
  startswith EXTINF (strip raw) = false ->
  loop_body lines keywords raw st
  = State (S (index st)) (output_lines st) (kept_by_group st).
Proof. intros H. unfold loop_body. now rewrite H. Qed.

Lemma loop_body_no_url (lines keywords : list str) (raw : str) (st : state) (n : nat) :
  startswith EXTINF (strip raw) = true ->
  find_stream_url (drop (S (index st)) lines) (S (index st)) = (n, None) ->
  loop_body lines keywords raw st
  = State (S (index st)) (output_lines st) (kept_by_group st).
Proof. intros H Hf. unfold loop_body. now rewrite H, Hf. Qed.

Lemma find_stream_url_some (rest : list str) (n next_index : nat) (url : str) :
  find_stream_url rest n = (next_index, Some url) ->
  exists skipped raw rest',
    rest = skipped ++ raw :: rest'
    /\ Forall (fun r => substantive r = false) skipped
    /\ substantive raw = true
    /\ next_index = n + length skipped
    /\ url = strip raw.
Proof.
  intros H.
  destruct (find_stream_url_cases rest n)
    as [(skipped & raw & rest' & E & Hsk & Hraw & Hf)|[_ Hf]];
    rewrite Hf in H; inversion H; subst.
  exists skipped, raw, rest'. auto.
Qed.

Lemma loop_body_url (lines keywords : list str) (raw : str) (st : state)
      (next_index : nat) (url : str) :
  startswith EXTINF (strip raw) = true ->
  find_stream_url (drop (S (index st)) lines) (S (index st)) = (next_index, Some url) ->
  loop_body lines keywords raw st
  = if should_keep keywords (extract_group_title (strip raw))
    then State (S next_index) (output_lines st ++ [strip raw; url])
               (increment (extract_group_title (strip raw)) (kept_by_group st))
    else State (S next_index) (output_lines st) (kept_by_group st).
Proof.
  intros H Hf. unfold loop_body. rewrite H, Hf.
  apply find_stream_url_some in Hf as (skipped & raw' & rest' & _ & _ & Hraw & _ & ->).
  rewrite (substantive_truthy _ Hraw). simpl.
  now destruct (should_keep _ _).
Qed.

(** C10: the scan terminates.  [filter_playlist] returns a result, the same
    for every iteration bound of at least one per line; each iteration of
    the main loop moves the cursor strictly forward: one past the stream URL
    when a directive line found one, and by exactly one otherwise. *)
Theorem filter_playlist_terminates (text : str) (keywords : list str) :
  (exists result,
      filter_playlist text keywords = Some result
      /\ forall fuel, length (splitlines text) <= fuel ->
                      filter_playlist_fuel fuel text keywords = Some result)
  /\ (forall lines raw st,
        let st' := loop_body lines keywords raw st in
        index st < index st'
        /\ match find_stream_url (drop (S (index st)) lines) (S (index st)) with
           | (next_index, Some _) =>
               if startswith EXTINF (strip raw)
               then index st < next_index /\ index st' = S next_index
               else index st' = S (index st)
           | (_, None) => index st' = S (index st)
           end).
Proof.
  split.
  - unfold filter_playlist, filter_playlist_fuel.
    set (lines := splitlines text). set (st0 := State 0 _ _).
    destruct (main_loop_terminates lines keywords (length lines) st0) as [st' Hst'];
      [lia|].
    exists (join [LF] (output_lines st') ++ [LF], kept_by_group st').
    rewrite Hst'. split; [reflexivity|].
    intros fuel Hfuel.
    now rewrite (main_loop_fuel_mono _ _ _ fuel _ _ Hst' Hfuel).
  - intros lines raw st st'. split; [apply loop_body_index|].
    destruct (find_stream_url _ _) as [next_index [url|]] eqn:Hf;
      destruct (startswith EXTINF (strip raw)) eqn:Hd; subst st'.
    + rewrite (loop_body_url _ _ _ _ _ _ Hd Hf).
      apply find_stream_url_some in Hf as (skipped & _ & _ & _ & _ & _ & -> & _).
      split; [lia|]. now destruct (should_keep _ _).
    + now rewrite loop_body_skip.
    + now rewrite (loop_body_no_url _ _ _ _ _ Hd Hf).
    + now rewrite loop_body_skip.
Qed.

(** ** Keyword order *)

Lemma should_keep_Permutation (keywords keywords' : list str) (group_title : str) :
  Permutation keywords keywords' ->
  should_keep keywords group_title = should_keep keywords' group_title.
Proof.
  unfold should_keep. induction 1 as [|k l l' _ IH|k k' l|l l' l'' _ IH1 _ IH2]; simpl.
  - reflexivity.
  - now rewrite IH.
  - now rewrite !orb_assoc, (orb_comm (contains k' _)).
  - congruence.
Qed.

Lemma loop_body_ext (lines keywords keywords' : list str) (raw : str) (st : state) :
  (forall g, should_keep keywords g = should_keep keywords' g) ->
  loop_body lines keywords raw st = loop_body lines keywords' raw st.
Proof. intros H. unfold loop_body. now rewrite H. Qed.

Lemma main_loop_ext (lines keywords keywords' : list str) (fuel : nat) (st : state) :
  (forall g, should_keep keywords g = should_keep keywords' g) ->
  main_loop fuel lines keywords st = main_loop fuel lines keywords' st.
Proof.
  intros H. revert st; induction fuel as [|fuel IH]; intros st; simpl;
    [reflexivity|].
  destruct (lines !! index st); [|reflexivity].
  now rewrite (loop_body_ext _ _ _ _ _ H), IH.
Qed.

(** C6: the outcome does not depend on the order of the keywords. *)
Theorem keyword_order_irrelevant (text : str) (keywords keywords' : list str) :
  Permutation keywords keywords' ->
  filter_playlist text keywords = filter_playlist text keywords'.
Proof.
  intros Hperm. unfold filter_playlist, filter_playlist_fuel.
  rewrite (main_loop_ext _ keywords keywords'); [reflexivity|].
  intros g. now apply should_keep_Permutation.
Qed.

(** C6 at a concrete playlist: the keywords A, B and B, A. *)
Lemma keyword_order_irrelevant_witness :
  filter_playlist example_playlist [py "A"; py "B"]
  = filter_playlist example_playlist [py "B"; py "A"].
Proof. apply keyword_order_irrelevant. apply perm_swap. Defined.

(** ** The example of the specification *)

(** C4: the example playlist filtered with the keyword A keeps the entry of
    group A only, and counts it once. *)
Theorem example_playlist_filtered :
  filter_playlist example_playlist [py "A"]
  = Some (example_filtered, {[ py "A" := 1 ]}).
Proof. vm_compute. reflexivity. Qed.

(** ** Lines *)

(** Induction two elements at a time, as [splitlines_from] recurses. *)
Lemma list_pair_ind {A : Type} (P : list A -> Prop) :
  P [] -> (forall a, P [a]) ->
  (forall a b l, P l -> P (b :: l) -> P (a :: b :: l)) ->
  forall l, P l.
Proof.
  intros Hnil Hone Hstep l.
  assert (H : P l /\ forall a, P (a :: l)); [|apply H].
  induction l as [|b l [IH1 IH2]]; split; auto.
Qed.

Lemma forallb_Forall {A : Type} (f : A -> bool) (l : list A) :
  forallb f l = true <-> Forall (fun x => f x = true) l.
Proof.
  induction l as [|x l IH]; simpl.
  - split; [constructor|reflexivity].
  - rewrite andb_true_iff, IH, Forall_cons. reflexivity.
Qed.

Lemma splitlines_from_cons (cur : str) (c : char) (s' : str) :
  splitlines_from cur (c :: s')
  = if islinebreak c then
      match s' with
      | c' :: s'' =>
          if N.eqb c CR && N.eqb c' LF
          then cur :: splitlines_from [] s''
          else cur :: splitlines_from [] s'
      | [] => cur :: splitlines_from [] s'
      end
    else splitlines_from (cur ++ [c]) s'.
Proof. reflexivity. Qed.

Lemma splitlines_from_Forall (P : char -> Prop) (s : str) :
  forall cur, Forall P cur -> Forall P s -> Forall (Forall P) (splitlines_from cur s).
Proof.
  induction s as [|c|c c' s IH1 IH2] using list_pair_ind; intros cur Hcur Hs.
  - simpl. destruct cur; repeat constructor. now inversion Hcur. now inversion Hcur.
  - apply Forall_cons in Hs as [Hc _]. simpl.
    destruct (islinebreak c); [repeat constructor; assumption|].
    assert (Forall P (cur ++ [c])) by (apply Forall_app; auto).
    destruct (cur ++ [c]); repeat constructor; now inversion H.
  - apply Forall_cons in Hs as [Hc Hs]. pose proof Hs as Hs'.
    apply Forall_cons in Hs' as [Hc' Hs'].
    rewrite splitlines_from_cons. destruct (islinebreak c).
    + destruct (_ && _); constructor; auto using Forall_nil_2.
    + apply IH2; [|assumption]. apply Forall_app; auto.
Qed.

(** No line of [splitlines] contains a line boundary. *)
Lemma splitlines_from_no_linebreak (s : str) :
  forall cur, Forall (fun c => islinebreak c = false) cur ->
              Forall (Forall (fun c => islinebreak c = false)) (splitlines_from cur s).
Proof.
  induction s as [|c|c c' s IH1 IH2] using list_pair_ind; intros cur Hcur.
  - simpl. destruct cur; repeat constructor. now inversion Hcur. now inversion Hcur.
  - simpl. destruct (islinebreak c) eqn:Hc; [repeat constructor; assumption|].
    assert (Forall (fun c => islinebreak c = false) (cur ++ [c]))
      by (apply Forall_app; auto).
    destruct (cur ++ [c]); repeat constructor; now inversion H.
  - rewrite splitlines_from_cons. destruct (islinebreak c) eqn:Hc.
    + destruct (_ && _); constructor; auto using Forall_nil_2.
    + apply IH2. apply Forall_app; auto.
Qed.

Lemma splitlines_no_linebreak (text : str) :
  Forall (Forall (fun c => islinebreak c = false)) (splitlines text).
Proof. apply splitlines_from_no_linebreak. constructor. Qed.

(** ** Stripping *)

Lemma dropwhile_all (p : char -> bool) (s : str) :
  Forall (fun c => p c = true) s -> dropwhile p s = [].
Proof. induction 1 as [|c s Hc _ IH]; simpl; [reflexivity|now rewrite Hc]. Qed.

Lemma strip_blank (s : str) :
  Forall (fun c => isspace c = true) s -> strip s = [].
Proof. intros H. unfold strip, lstrip. now rewrite dropwhile_all. Qed.

Lemma space_not_bom (c : char) : isspace c = true -> N.eqb BOM c = false.
Proof.
  intros H. destruct (N.eqb_spec BOM c) as [<-|]; [|reflexivity].
  vm_compute in H. discriminate.
Qed.

Lemma lstrip_bom_blank (s : str) :
  Forall (fun c => isspace c = true) s -> lstrip_bom s = s.
Proof.
  destruct 1 as [|c s Hc _]; [reflexivity|].
  unfold lstrip_bom. cbn [dropwhile]. now rewrite (space_not_bom _ Hc).
Qed.

(** ** The header *)

(** The header is the normalised form of the first header line, or the bare
    token when no line is a header line. *)
Lemma find_header_spec (lines : list str) :
  (Forall (fun l => is_header_line l = false) lines /\ find_header lines = EXTM3U)
  \/ (exists before line after,
        lines = before ++ line :: after
        /\ Forall (fun l => is_header_line l = false) before
        /\ is_header_line line = true
        /\ find_header lines = strip (lstrip_bom line)).
Proof.
  induction lines as [|l lines IH].
  - left. split; [constructor|reflexivity].
  - cbn [find_header]. destruct (is_header_line l) eqn:Hl; unfold is_header_line in Hl.
    + right. exists [], l, lines. rewrite Hl.
      split; [reflexivity|]. split; [constructor|]. split; [assumption|reflexivity].
    + rewrite Hl. destruct IH as [[Hall E]|(before & line & after & -> & Hb & Hline & E)].
      * left. split; [now constructor|assumption].
      * right. exists (l :: before), line, after.
        split; [reflexivity|]. split; [now constructor|]. split; assumption.
Qed.

(** ** Playlists without directive lines *)

Lemma no_directive_result (text : str) (keywords : list str) :
  Forall (fun line => is_directive line = false) (splitlines text) ->
  filter_playlist text keywords = Some (find_header (splitlines text) ++ [LF], ∅).
Proof.
  intros Hnone. unfold filter_playlist, filter_playlist_fuel.
  set (lines := splitlines text) in *. set (st0 := State 0 _ _).
  destruct (main_loop_terminates lines keywords (length lines) st0) as [st' Hst'];
    [lia|].
  rewrite Hst'.
  assert (HI : output_lines st' = [find_header lines] /\ kept_by_group st' = ∅).
  { apply (main_loop_invariant
             (fun st => output_lines st = [find_header lines] /\ kept_by_group st = ∅)
             lines keywords) with (fuel := length lines) (st := st0);
      [|split; reflexivity|assumption].
    intros st raw Hraw HI. rewrite loop_body_skip; [assumption|].
    apply (Forall_lookup_1 _ _ _ _ Hnone Hraw). }
  destruct HI as [-> ->]. reflexivity.
Qed.

Lemma blank_input_lines (text : str) :
  Forall (fun c => isspace c = true) text ->
  Forall (fun line => is_directive line = false) (splitlines text)
  /\ find_header (splitlines text) = EXTM3U.
Proof.
  intros Hblank.
  pose proof (splitlines_from_Forall _ text [] (Forall_nil_2 _) Hblank) as Hlines.
  fold (splitlines text) in Hlines. split.
  - eapply Forall_impl; [exact Hlines|]. intros line Hline.
    unfold is_directive. now rewrite (strip_blank _ Hline).
  - induction Hlines as [|line lines Hline _ IH]; [reflexivity|].
    cbn [find_header]. now rewrite (lstrip_bom_blank _ Hline), (strip_blank _ Hline).
Qed.

(** ** The category label *)

Lemma after_prefix_spec (prefix s rest : str) :
  after_prefix prefix s = Some rest <-> s = prefix ++ rest.
Proof.
  revert s; induction prefix as [|a prefix IH]; intros s; simpl.
  - split; congruence.
  - destruct s as [|b s]; [split; discriminate|].
    destruct (N.eqb_spec a b) as [->|Hne].
    + rewrite IH. split; congruence.
    + split; [discriminate|]. intros E. inversion E. congruence.
Qed.

Lemma until_quote_complete (group post : str) :
  Forall (fun c => c <> DQUOTE) group ->
  until_quote (group ++ [DQUOTE] ++ post) = Some group.
Proof.
  induction 1 as [|c group Hc _ IH]; [reflexivity|].
  cbn [until_quote app]. destruct (N.eqb_spec c DQUOTE); [contradiction|].
  cbn [app] in IH. now rewrite IH.
Qed.

Lemma until_quote_sound (s group : str) :
  until_quote s = Some group ->
  exists post, s = group ++ [DQUOTE] ++ post /\ Forall (fun c => c <> DQUOTE) group.
Proof.
  revert group; induction s as [|c s IH]; intros group; cbn [until_quote];
    [discriminate|].
  destruct (N.eqb_spec c DQUOTE) as [->|Hne].
  - intros [= <-]. exists s. split; [reflexivity|constructor].
  - destruct (until_quote s) as [cap|]; [|discriminate].
    intros [= <-]. destruct (IH cap eq_refl) as (post & -> & Hcap).
    exists post. split; [reflexivity|now constructor].
Qed.

Lemma until_quote_spec (s group : str) :
  until_quote s = Some group
  <-> exists post, s = group ++ [DQUOTE] ++ post /\ Forall (fun c => c <> DQUOTE) group.
Proof.
  split; [apply until_quote_sound|].
  intros (post & -> & Hg). now apply until_quote_complete.
Qed.

Lemma match_here_spec (s group : str) :
  match_here s = Some group <-> matches_at s [] group.
Proof.
  unfold match_here, matches_at. split.
  - destruct (after_prefix GROUP_TITLE_KEY s) as [rest|] eqn:E; [|discriminate].
    apply after_prefix_spec in E as ->. intros H.
    apply until_quote_spec in H as (post & -> & Hg). now exists post.
  - intros (post & -> & Hg).
    rewrite (proj2 (after_prefix_spec GROUP_TITLE_KEY _ (group ++ [DQUOTE] ++ post)));
      [|reflexivity].
    apply until_quote_spec. eauto.
Qed.

Lemma matches_at_cons (c : char) (s pre group : str) :
  matches_at (c :: s) (c :: pre) group <-> matches_at s pre group.
Proof.
  unfold matches_at. split; intros (post & E & Hg); exists post; split; auto.
  - now inversion E.
  - now rewrite E.
Qed.

(** [search] returns the capture of the leftmost match, and nothing when the
    pattern matches nowhere. *)
Lemma search_spec (s : str) :
  (search s = None /\ forall pre group, ~ matches_at s pre group)
  \/ (exists pre group,
        search s = Some group
        /\ matches_at s pre group
        /\ forall pre' group', matches_at s pre' group' -> length pre <= length pre').
Proof.
  induction s as [|c s IH].
  - cbn [search]. destruct (match_here []) as [g|] eqn:Hm.
    + right. exists [], g. split; [reflexivity|]. split; [now apply match_here_spec|].
      intros; simpl; lia.
    + left. split; [reflexivity|]. intros pre g (post & E & _).
      destruct pre; discriminate.
  - cbn [search]. destruct (match_here (c :: s)) as [g|] eqn:Hm.
    + right. exists [], g. split; [reflexivity|]. split; [now apply match_here_spec|].
      intros; simpl; lia.
    + assert (Hnot : forall g, ~ matches_at (c :: s) [] g).
      { intros g Hg. apply match_here_spec in Hg. congruence. }
      assert (Hshift : forall pre g, matches_at (c :: s) pre g ->
                exists pre', pre = c :: pre' /\ matches_at s pre' g).
      { intros [|c' pre'] g Hg; [now apply Hnot in Hg|].
        assert (c' = c) as -> by (destruct Hg as (post & E & _); now inversion E).
        exists pre'. split; [reflexivity|]. now apply matches_at_cons in Hg. }
      destruct IH as [[E Hnone]|(pre & g & E & Hg & Hmin)].
      * left. split; [assumption|]. intros pre g Hg.
        apply Hshift in Hg as (pre' & _ & Hg). now apply Hnone in Hg.
      * right. exists (c :: pre), g. split; [assumption|].
        split; [now apply matches_at_cons|].
        intros pre' g' Hg'. apply Hshift in Hg' as (pre'' & -> & Hg').
        apply Hmin in Hg'. simpl. lia.
Qed.

(** The capture at a given position is unique. *)
Lemma matches_at_unique (s pre pre' group group' : str) :
  matches_at s pre group -> matches_at s pre' group' ->
  length pre = length pre' -> group = group'.
Proof.
  revert s pre'; induction pre as [|c pre IH]; intros s pre' H H' Hlen.
  - destruct pre'; [|discriminate]. apply match_here_spec in H, H'. congruence.
  - destruct pre' as [|c' pre']; [discriminate|].
    destruct s as [|c0 s]; [destruct H as (? & E & _); discriminate|].
    assert (c = c0) as -> by (destruct H as (? & E & _); now inversion E).
    assert (c' = c0) as -> by (destruct H' as (? & E & _); now inversion E).
    apply matches_at_cons in H, H'. apply (IH s pre'); auto.
Qed.

(** ** The keep decision *)

Lemma should_keep_spec (keywords : list str) (label : str) :
  should_keep keywords label = true <-> label_matches keywords label.
Proof.
  unfold should_keep, label_matches. induction keywords as [|k keywords IH]; simpl.
  - split; [discriminate|]. intros (k & _ & _ & Hin & _). now apply elem_of_nil in Hin.
  - rewrite orb_true_iff, IH. split.
    + intros [H|(k' & pre & post & Hin & E)].
      * apply contains_inv in H as (pre & post & E).
        exists k, pre, post. split; [apply list_elem_of_here|assumption].
      * exists k', pre, post. split; [now apply list_elem_of_further|assumption].
    + intros (k' & pre & post & Hin & E). apply elem_of_cons in Hin as [->|Hin].
      * left. rewrite E. apply contains_app.
      * right. eauto 6.
Qed.

Lemma should_keep_empty_keyword (keywords : list str) (label : str) :
  [] ∈ keywords -> should_keep keywords label = true.
Proof.
  intros Hin. apply should_keep_spec. exists [], [], label. auto.
Qed.

Lemma should_keep_empty_label (keywords : list str) :
  Forall (fun keyword => keyword <> []) keywords -> should_keep keywords [] = false.
Proof.
  intros Hall. apply not_true_is_false. intros H.
  apply should_keep_spec in H as (k & pre & post & Hin & E).
  rewrite Forall_forall in Hall. apply (Hall k Hin).
  destruct pre; [|discriminate]. destruct k; [reflexivity|discriminate].
Qed.

Lemma extract_group_title_spec (line : str) :
  let label := extract_group_title line in
  ((forall pre group, ~ matches_at line pre group) /\ label = [])
  \/ (exists pre,
        matches_at line pre label
        /\ forall pre' group', matches_at line pre' group' -> length pre <= length pre').
Proof.
  unfold extract_group_title.
  destruct (search_spec line) as [[-> Hnone]|(pre & g & -> & Hg & Hmin)]; eauto.
Qed.

(** C5: the keep decision for a directive line that found a stream URL.  The
    entry is kept exactly when its label contains one of the keywords as a
    substring, compared character by character; the label is the capture of
    the leftmost match of the group-title pattern in the directive line, and
    empty when the pattern matches nowhere.  So an entry without a
    group-title is dropped when no keyword is empty, and an empty keyword
    keeps every entry; CCTV-News is kept by News and dropped by news. *)
Theorem keep_decision (lines keywords : list str) (raw : str) (st : state)
        (next_index : nat) (url : str) :
  is_directive raw = true ->
  find_stream_url (drop (S (index st)) lines) (S (index st)) = (next_index, Some url) ->
  let label := extract_group_title (strip raw) in
  let st' := loop_body lines keywords raw st in
  let kept := output_lines st' = output_lines st ++ [strip raw; url]
              /\ kept_by_group st' = increment label (kept_by_group st) in
  let dropped := output_lines st' = output_lines st
                 /\ kept_by_group st' = kept_by_group st in
  (label_matches keywords label -> kept)
  /\ (~ label_matches keywords label -> dropped)
  /\ ~ (kept /\ dropped)
  /\ (((forall pre group, ~ matches_at (strip raw) pre group) /\ label = [])
      \/ (exists pre,
            matches_at (strip raw) pre label
            /\ forall pre' group',
                matches_at (strip raw) pre' group' -> length pre <= length pre'))
  /\ ((forall pre group, ~ matches_at (strip raw) pre group) ->
      Forall (fun keyword => keyword <> []) keywords -> dropped)
  /\ ([] ∈ keywords -> kept)
  /\ should_keep [py "News"] (py "CCTV-News") = true
  /\ should_keep [py "news"] (py "CCTV-News") = false.
Proof.
  intros Hd Hf label st' kept dropped.
  assert (Hyes : should_keep keywords label = true -> kept).
  { intros H. subst kept st'. rewrite (loop_body_url _ _ _ _ _ _ Hd Hf).
    fold label. rewrite H. split; reflexivity. }
  assert (Hno : should_keep keywords label = false -> dropped).
  { intros H. subst dropped st'. rewrite (loop_body_url _ _ _ _ _ _ Hd Hf).
    fold label. rewrite H. split; reflexivity. }
  split; [|split; [|split; [|split; [|split; [|split; [|split]]]]]].
  - intros H. apply Hyes. now apply should_keep_spec.
  - intros H. apply Hno. apply not_true_is_false. intros H'.
    now apply should_keep_spec in H'.
  - intros [[H1 _] [H2 _]]. rewrite H2 in H1.
    apply (f_equal length) in H1. rewrite length_app in H1. simpl in H1. lia.
  - apply extract_group_title_spec.
  - intros Hnone Hall. apply Hno.
    destruct (extract_group_title_spec (strip raw)) as [[_ E]|(pre & Hm & _)].
    + subst label. rewrite E. now apply should_keep_empty_label.
    + now apply Hnone in Hm.
  - intros Hin. apply Hyes. now apply should_keep_empty_keyword.
  - reflexivity.
  - reflexivity.
Qed.

(** C5 at the CCTV-News entry with the keyword News: the entry is kept. *)
Lemma keep_decision_witness :
  output_lines (loop_body [news_directive; news_url] [py "News"] news_directive
                          (State 0 [EXTM3U] ∅))
  = [EXTM3U; news_directive; news_url].
Proof.
  refine (proj1 (proj1 (keep_decision [news_directive; news_url] [py "News"]
                                      news_directive (State 0 [EXTM3U] ∅)
                                      1 news_url eq_refl eq_refl) _)).
  exists (py "News"), (py "CCTV-"), []. split; [apply list_elem_of_here|reflexivity].
Defined.

(** ** What stripping removes *)

Lemma dropwhile_split (p : char -> bool) (s : str) :
  exists l, s = l ++ dropwhile p s /\ Forall (fun c => p c = true) l.
Proof.
  induction s as [|c s (l & E & Hl)]; simpl.
  - exists []. split; [reflexivity|constructor].
  - destruct (p c) eqn:Hc.
    + exists (c :: l). split; [simpl; congruence|now constructor].
    + exists []. split; [reflexivity|constructor].
Qed.

Lemma dropwhile_head (p : char -> bool) (s : str) :
  dropwhile p s = [] \/ exists c t, dropwhile p s = c :: t /\ p c = false.
Proof.
  induction s as [|c s IH]; simpl; [now left|].
  destruct (p c) eqn:Hc; [assumption|]. right. eauto.
Qed.

Lemma dropwhile_fixed (p : char -> bool) (s : str) :
  (s = [] \/ exists c t, s = c :: t /\ p c = false) -> dropwhile p s = s.
Proof. intros [->|(c & t & -> & Hc)]; simpl; [reflexivity|now rewrite Hc]. Qed.

Lemma dropwhile_idem (p : char -> bool) (s : str) :
  dropwhile p (dropwhile p s) = dropwhile p s.
Proof. apply dropwhile_fixed, dropwhile_head. Qed.

Lemma dropwhile_Forall (P : char -> Prop) (p : char -> bool) (s : str) :
  Forall P s -> Forall P (dropwhile p s).
Proof.
  intros H. destruct (dropwhile_split p s) as (l & E & _).
  rewrite E in H. now apply Forall_app in H as [_ H].
Qed.

Lemma rstrip_split (s : str) :
  exists r, s = rstrip s ++ r /\ Forall (fun c => isspace c = true) r.
Proof.
  unfold rstrip. destruct (dropwhile_split isspace (rev s)) as (l & E & Hl).
  exists (rev l). split; [|now apply Forall_rev].
  rewrite <- rev_app_distr, <- E. symmetry. apply rev_involutive.
Qed.

(** [strip] removes a run of whitespace at each end and nothing else. *)
Lemma strip_split (s : str) :
  exists l r,
    s = l ++ strip s ++ r
    /\ Forall (fun c => isspace c = true) l
    /\ Forall (fun c => isspace c = true) r.
Proof.
  destruct (dropwhile_split isspace s) as (l & E & Hl).
  destruct (rstrip_split (lstrip s)) as (r & E' & Hr).
  exists l, r. split; [|auto]. unfold strip. rewrite <- E'. exact E.
Qed.

Lemma strip_Forall (P : char -> Prop) (s : str) :
  Forall P s -> Forall P (strip s).
Proof.
  intros H. destruct (strip_split s) as (l & r & E & _).
  rewrite E in H. apply Forall_app in H as [_ H]. now apply Forall_app in H as [H _].
Qed.

(** A stripped string has no whitespace left at either end. *)
Lemma lstrip_strip (s : str) : lstrip (strip s) = strip s.
Proof.
  unfold lstrip at 1. apply dropwhile_fixed.
  destruct (rstrip_split (lstrip s)) as (r & E & _). fold (strip s) in E.
  destruct (strip s) as [|c t]; [now left|]. right. exists c, t. split; [reflexivity|].
  destruct (dropwhile_head isspace s) as [H|(c' & t' & H & Hc')];
    unfold lstrip in E; rewrite H in E; inversion E; now subst.
Qed.

Lemma rstrip_strip (s : str) : rstrip (strip s) = strip s.
Proof.
  unfold strip. unfold rstrip at 1 2.
  now rewrite rev_involutive, dropwhile_idem.
Qed.

Lemma strip_idem (s : str) : strip (strip s) = strip s.
Proof. unfold strip at 1. now rewrite lstrip_strip, rstrip_strip. Qed.

(** ** Kept entries *)

(** The line the inner loop stopped at. *)
Lemma find_stream_url_lookup (lines : list str) (i next_index : nat) (url : str) :
  find_stream_url (drop i lines) i = (next_index, Some url) ->
  i <= next_index
  /\ exists raw_url, lines !! next_index = Some raw_url /\ url = strip raw_url
                     /\ substantive raw_url = true.
Proof.
  intros H.
  apply find_stream_url_some in H as (skipped & raw' & rest' & E & _ & Hraw & -> & ->).
  split; [lia|]. exists raw'. split; [|auto].
  rewrite <- lookup_drop, E. now apply list_lookup_middle.
Qed.

(** C2, as the code has it: a kept entry is appended as the directive line
    and the stream URL line of the input, each with the whitespace at its two
    ends removed and otherwise unchanged. *)
Theorem kept_entry_lines_stripped (lines keywords : list str) (raw : str)
        (st : state) (next_index : nat) (url : str) :
  lines !! index st = Some raw ->
  is_directive raw = true ->
  find_stream_url (drop (S (index st)) lines) (S (index st)) = (next_index, Some url) ->
  should_keep keywords (extract_group_title (strip raw)) = true ->
  exists raw_url,
    lines !! next_index = Some raw_url
    /\ index st < next_index
    /\ output_lines (loop_body lines keywords raw st)
       = output_lines st ++ [strip raw; strip raw_url]
    /\ (exists l r, raw = l ++ strip raw ++ r
                    /\ Forall (fun c => isspace c = true) l
                    /\ Forall (fun c => isspace c = true) r)
    /\ (exists l r, raw_url = l ++ strip raw_url ++ r
                    /\ Forall (fun c => isspace c = true) l
                    /\ Forall (fun c => isspace c = true) r).
Proof.
  intros Hraw Hd Hf Hkeep.
  rewrite (loop_body_url _ _ _ _ _ _ Hd Hf), Hkeep.
  apply find_stream_url_lookup in Hf as (Hle & raw_url & Hlook & -> & _).
  exists raw_url. split; [assumption|]. split; [lia|]. split; [reflexivity|].
  split; apply strip_split.
Qed.

(** C2, as the code has it, at the padded playlist: the entry is appended
    stripped. *)
Lemma kept_entry_lines_stripped_witness :
  exists raw_url,
    splitlines padded_playlist !! 2 = Some raw_url
    /\ 1 < 2
    /\ output_lines (loop_body (splitlines padded_playlist) [py "A"] padded_directive
                               (State 1 [EXTM3U] ∅))
       = [EXTM3U] ++ [strip padded_directive; strip raw_url]
    /\ (exists l r, padded_directive = l ++ strip padded_directive ++ r
                    /\ Forall (fun c => isspace c = true) l
                    /\ Forall (fun c => isspace c = true) r)
    /\ (exists l r, raw_url = l ++ strip raw_url ++ r
                    /\ Forall (fun c => isspace c = true) l
                    /\ Forall (fun c => isspace c = true) r).
Proof.
  exact (kept_entry_lines_stripped (splitlines padded_playlist) [py "A"]
           padded_directive (State 1 [EXTM3U] ∅) 2 (strip padded_url)
           eq_refl eq_refl eq_refl eq_refl).
Defined.

(** C2 as stated fails: on the padded playlist the kept lines are not the
    input lines byte for byte; the output is the unpadded playlist. *)
Lemma verbatim_lines_counterexample :
  splitlines padded_playlist = [py "#EXTM3U"; padded_directive; padded_url]
  /\ filter_playlist padded_playlist [py "A"]
     = Some (example_filtered, {[ py "A" := 1 ]})
  /\ splitlines example_filtered
     = [py "#EXTM3U"; strip padded_directive; strip padded_url]
  /\ strip padded_directive <> padded_directive
  /\ strip padded_url <> padded_url
  /\ filter_playlist padded_playlist [py "A"]
     <> Some (padded_playlist, {[ py "A" := 1 ]}).
Proof.
  assert (E : filter_playlist padded_playlist [py "A"]
              = Some (example_filtered, {[ py "A" := 1 ]}))
    by (vm_compute; reflexivity).
  split; [reflexivity|]. split; [exact E|]. split; [reflexivity|].
  split; [|split].
  - intros H. vm_compute in H. discriminate.
  - intros H. vm_compute in H. discriminate.
  - rewrite E. intros H.
    apply (f_equal (fun r => match r with Some (t, _) => length t | None => 0 end)) in H.
    vm_compute in H. discriminate.
Qed.

(** ** Directive lines without a stream URL *)

Lemma find_stream_url_all_skipped (rest : list str) (n : nat) :
  Forall (fun r => substantive r = false) rest ->
  find_stream_url rest n = (n + length rest, None).
Proof.
  intros Hall.
  destruct (find_stream_url_cases rest n)
    as [(skipped & raw & rest' & -> & _ & Hraw & _)|[_ Hf]]; [|assumption].
  apply Forall_app in Hall as [_ Hall]. apply Forall_cons in Hall as [Hno _].
  congruence.
Qed.

(** A directive line with no substantive line after it up to the end of the
    input is not emitted and not counted, the scan resumes at the line after
    it, and the rest of the scan emits and counts nothing more. *)
Lemma trailing_directive_dropped (lines keywords : list str) (raw : str)
        (st : state) :
  lines !! index st = Some raw ->
  is_directive raw = true ->
  forallb (fun r => negb (substantive r)) (drop (S (index st)) lines) = true ->
  loop_body lines keywords raw st
  = State (S (index st)) (output_lines st) (kept_by_group st)
  /\ exists st',
      (forall fuel, length lines - index st <= fuel ->
                    main_loop fuel lines keywords st = Some st')
      /\ output_lines st' = output_lines st
      /\ kept_by_group st' = kept_by_group st.
Proof.
  intros Hraw Hd Hrest.
  assert (Hall : Forall (fun r => substantive r = false) (drop (S (index st)) lines)).
  { apply forallb_Forall in Hrest. eapply Forall_impl; [exact Hrest|].
    intros r Hr. now apply negb_true_iff. }
  split.
  - eapply loop_body_no_url; [exact Hd|]. now apply find_stream_url_all_skipped.
  - destruct (main_loop_terminates lines keywords (length lines - index st) st)
      as [st' Hst']; [lia|].
    exists st'. split.
    + intros fuel Hfuel. eapply main_loop_fuel_mono; eauto.
    + assert (HI : index st <= index st' /\ output_lines st' = output_lines st
                   /\ kept_by_group st' = kept_by_group st); [|tauto].
      apply (main_loop_invariant
               (fun s => index st <= index s /\ output_lines s = output_lines st
                         /\ kept_by_group s = kept_by_group st)
               lines keywords) with (fuel := length lines - index st) (st := st);
        [|auto|assumption].
      intros s raw_s Hs (Hle & Hout & Hkept).
      destruct (startswith EXTINF (strip raw_s)) eqn:Hds.
      * erewrite loop_body_no_url; [simpl; split; [lia|auto]|exact Hds|].
        apply find_stream_url_all_skipped.
        replace (S (index s)) with (S (index st) + (index s - index st)) by lia.
        rewrite <- drop_drop. now apply Forall_drop.
      * rewrite loop_body_skip by assumption. simpl. split; [lia|auto].
Qed.

(** C1 as stated fails: the first of two directive lines in a row has no
    substantive line before the next directive line, yet it is emitted and
    counted, paired with the URL after the second, which is consumed with
    it. *)
Lemma orphan_directive_counterexample :
  splitlines orphan_playlist
  = [py "#EXTM3U"; directive_A; directive_B; py "http://y"]
  /\ is_directive directive_A = true
  /\ no_url_before_next_directive (drop 2 (splitlines orphan_playlist)) = true
  /\ loop_body (splitlines orphan_playlist) [py "A"] directive_A (State 1 [EXTM3U] ∅)
     = State 4 [EXTM3U; directive_A; py "http://y"] {[ py "A" := 1 ]}
  /\ loop_body (splitlines orphan_playlist) [py "A"] directive_A (State 1 [EXTM3U] ∅)
     <> State 2 [EXTM3U] ∅
  /\ filter_playlist orphan_playlist [py "A"]
     = Some (py "#EXTM3U" ++ [LF] ++ directive_A ++ [LF] ++ py "http://y" ++ [LF],
             {[ py "A" := 1 ]})
  /\ filter_playlist orphan_playlist [py "A"] <> Some (py "#EXTM3U" ++ [LF], ∅).
Proof.
  assert (E : loop_body (splitlines orphan_playlist) [py "A"] directive_A
                        (State 1 [EXTM3U] ∅)
              = State 4 [EXTM3U; directive_A; py "http://y"] {[ py "A" := 1 ]})
    by (vm_compute; reflexivity).
  assert (F : filter_playlist orphan_playlist [py "A"]
              = Some (py "#EXTM3U" ++ [LF] ++ directive_A ++ [LF]
                      ++ py "http://y" ++ [LF], {[ py "A" := 1 ]}))
    by (vm_compute; reflexivity).
  split; [reflexivity|]. split; [reflexivity|]. split; [reflexivity|].
  split; [exact E|]. split; [|split; [exact F|]].
  - rewrite E. intros H. apply (f_equal index) in H. discriminate.
  - rewrite F. intros H.
    apply (f_equal (fun r => match r with Some (t, _) => length t | None => 0 end)) in H.
    vm_compute in H. discriminate.
Qed.

(** ** fetch_text: fallback across the sources *)

Section FetcherProperties.

Context {World : Type}.
Variable urlopen : str -> nat -> World -> attempt * World.
Variable decode : list N -> str.
Variable timeout : nat.

(** Failed attempts are passed over: the loop goes on with the rest. *)
Lemma fetch_loop_after_failures (failed rest : list str) (w w' : World)
      (last last' : option exn) :
  attempts_fail urlopen timeout failed w last w' last' ->
  fetch_loop urlopen decode timeout (failed ++ rest) last w
  = fetch_loop urlopen decode timeout rest last' w'.
Proof.
  induction 1 as [|url urls w w' w'' exc last last' Hopen Hcaught _ IH];
    [reflexivity|].
  cbn [app fetch_loop]. now rewrite Hopen, Hcaught.
Qed.

(** The three ways the loop can end, each with the attempts it made. *)
Lemma fetch_loop_cases (urls : list str) (w : World) (last : option exn) :
  match fetch_loop urlopen decode timeout urls last w with
  | (Returned text good, w') =>
      exists failed rest raw w1 last1,
        urls = failed ++ good :: rest
        /\ attempts_fail urlopen timeout failed w last w1 last1
        /\ urlopen good timeout w1 = (Response raw, w')
        /\ text = decode raw
  | (RuntimeError message cause, w') =>
      exists last',
        attempts_fail urlopen timeout urls w last w' last'
        /\ RuntimeError message cause = raise_after_loop last'
  | (Propagated exc, w') =>
      exists failed url rest w1 last1,
        urls = failed ++ url :: rest
        /\ attempts_fail urlopen timeout failed w last w1 last1
        /\ urlopen url timeout w1 = (Raises exc, w')
        /\ is_caught exc = false
  end.
Proof.
  revert w last; induction urls as [|url urls IH]; intros w last.
  - cbn [fetch_loop]. unfold raise_after_loop at 1.
    destruct last as [exc|]; eexists; (split; [constructor|reflexivity]).
  - cbn [fetch_loop].
    destruct (urlopen url timeout w) as [[raw|exc] w1] eqn:Hopen.
    + exists [], urls, raw, w, last. repeat split; auto. constructor.
    + destruct (is_caught exc) eqn:Hcaught.
      * specialize (IH w1 (Some exc)).
        destruct (fetch_loop urlopen decode timeout urls (Some exc) w1)
          as [[text good|message cause|e] w'].
        -- destruct IH as (failed & rest & raw & w2 & last1 & -> & Hfail & Hgood & ->).
           exists (url :: failed), rest, raw, w2, last1. repeat split; auto.
           eapply attempts_fail_cons; eauto.
        -- destruct IH as (last' & Hfail & E). exists last'. split; [|assumption].
           eapply attempts_fail_cons; eauto.
        -- destruct IH as (failed & u & rest & w2 & last1 & -> & Hfail & Hu & He).
           exists (url :: failed), u, rest, w2, last1. repeat split; auto.
           eapply attempts_fail_cons; eauto.
      * exists [], url, urls, w, last. repeat split; auto. constructor.
Qed.

(** C8, as the code has it: with two sources that fail with errors of the
    classes the loop catches and a third that answers, [fetch_text] returns
    the decoded answer and the third source; it makes one attempt on each of
    the three, in order, and none on any source after them. *)
Theorem fetch_text_first_success (bad1 bad2 good : str) (later : list str)
        (e1 e2 : exn) (raw : list N) (w w1 w2 w3 : World) :
  urlopen bad1 timeout w = (Raises e1, w1) -> is_caught e1 = true ->
  urlopen bad2 timeout w1 = (Raises e2, w2) -> is_caught e2 = true ->
  urlopen good timeout w2 = (Response raw, w3) ->
  fetch_text urlopen decode timeout [bad1; bad2; good] w
  = (Returned (decode raw) good, w3)
  /\ fetch_text urlopen decode timeout ([bad1; bad2; good] ++ later) w
     = (Returned (decode raw) good, w3).
Proof.
  intros H1 C1 H2 C2 H3. unfold fetch_text. cbn [app fetch_loop].
  now rewrite H1, C1, H2, C2, H3.
Qed.

(** C9, as the code has it: [fetch_text] raises its own error exactly when
    every source is attempted and fails with an error of a class the loop
    catches.  With no source, the error says that no source URLs were
    provided and has no cause; with sources that all fail so, it carries the
    error of the last attempt, as its text and as its cause.  It returns
    exactly when a source answers after sources that all failed so. *)
Theorem fetch_text_failure (urls : list str) (w : World) :
  fetch_text urlopen decode timeout [] w
  = (RuntimeError (py "no source URLs were provided") None, w)
  /\ (forall init url w1 w' last1 exc,
        urls = init ++ [url] ->
        attempts_fail urlopen timeout init w None w1 last1 ->
        urlopen url timeout w1 = (Raises exc, w') ->
        is_caught exc = true ->
        fetch_text urlopen decode timeout urls w
        = (RuntimeError (py "failed to fetch source playlist: " ++ exn_text exc)
                        (Some exc), w'))
  /\ (forall w',
        (exists message cause,
            fetch_text urlopen decode timeout urls w
            = (RuntimeError message cause, w'))
        <-> exists last, attempts_fail urlopen timeout urls w None w' last)
  /\ (forall text good w',
        fetch_text urlopen decode timeout urls w = (Returned text good, w')
        <-> exists failed rest raw w1 last1,
            urls = failed ++ good :: rest
            /\ attempts_fail urlopen timeout failed w None w1 last1
            /\ urlopen good timeout w1 = (Response raw, w')
            /\ text = decode raw).
Proof.
  split; [reflexivity|]. split; [|split].
  - intros init url w1 w' last1 exc -> Hfail Hopen Hcaught. unfold fetch_text.
    rewrite (fetch_loop_after_failures _ _ _ _ _ _ Hfail).
    cbn [fetch_loop]. now rewrite Hopen, Hcaught.
  - intros w'. split.
    + intros (message & cause & E).
      pose proof (fetch_loop_cases urls w None) as Hc.
      unfold fetch_text in E. rewrite E in Hc.
      destruct Hc as (last' & Hfail & _). eauto.
    + intros (last & Hfail). unfold fetch_text.
      pose proof (fetch_loop_after_failures urls [] w w' None last Hfail) as E.
      rewrite app_nil_r in E. rewrite E. cbn [fetch_loop].
      unfold raise_after_loop. destruct last; eauto.
  - intros text good w'. split.
    + intros E. pose proof (fetch_loop_cases urls w None) as Hc.
      unfold fetch_text in E. now rewrite E in Hc.
    + intros (failed & rest & raw & w1 & last1 & -> & Hfail & Hgood & ->).
      unfold fetch_text. rewrite (fetch_loop_after_failures _ _ _ _ _ _ Hfail).
      cbn [fetch_loop]. now rewrite Hgood.
Qed.

End FetcherProperties.

(** C8 on the scripted network: two unreachable mirrors, then the source
    that answers; the log shows one attempt on each, in order. *)
Lemma fetch_text_first_success_witness :
  fetch_text (scripted_urlopen (py "http://good") (py "#EXTM3U")) ascii_decode 30
             [py "http://bad1"; py "http://bad2"; py "http://good"] []
  = (Returned (py "#EXTM3U") (py "http://good"),
     [py "http://bad1"; py "http://bad2"; py "http://good"])
  /\ fetch_text (scripted_urlopen (py "http://good") (py "#EXTM3U")) ascii_decode 30
                ([py "http://bad1"; py "http://bad2"; py "http://good"] ++ [])
                []
     = (Returned (py "#EXTM3U") (py "http://good"),
        [py "http://bad1"; py "http://bad2"; py "http://good"]).
Proof.
  exact (fetch_text_first_success
           (scripted_urlopen (py "http://good") (py "#EXTM3U")) ascii_decode 30
           (py "http://bad1") (py "http://bad2") (py "http://good") []
           (Exn URLError (py "unreachable: http://bad1"))
           (Exn URLError (py "unreachable: http://bad2"))
           (py "#EXTM3U")
           [] [py "http://bad1"] [py "http://bad1"; py "http://bad2"]
           [py "http://bad1"; py "http://bad2"; py "http://good"]
           eq_refl eq_refl eq_refl eq_refl eq_refl).
Defined.

(** C9 on the scripted network: two sources, both unreachable; the error
    carries the failure of the second. *)
Lemma fetch_text_failure_witness :
  fetch_text (scripted_urlopen (py "http://good") (py "#EXTM3U")) ascii_decode 30
             [py "http://bad1"; py "http://bad2"] []
  = (RuntimeError (py "failed to fetch source playlist: unreachable: http://bad2")
                  (Some (Exn URLError (py "unreachable: http://bad2"))),
     [py "http://bad1"; py "http://bad2"]).
Proof.
  refine (proj1 (proj2 (fetch_text_failure
            (scripted_urlopen (py "http://good") (py "#EXTM3U")) ascii_decode 30
            [py "http://bad1"; py "http://bad2"] []))
            [py "http://bad1"] (py "http://bad2") [py "http://bad1"]
            [py "http://bad1"; py "http://bad2"] _
            (Exn URLError (py "unreachable: http://bad2"))
            eq_refl _ eq_refl eq_refl).
  eapply attempts_fail_cons; [reflexivity|reflexivity|constructor].
Defined.

(** ** Idempotence *)

(** *** Lines joined and split again *)

Lemma splitlines_from_line (line rest cur : str) :
  no_linebreak line ->
  splitlines_from cur (line ++ LF :: rest) = (cur ++ line) :: splitlines_from [] rest.
Proof.
  intros Hline. revert cur.
  induction Hline as [|c line Hc _ IH]; intros cur.
  - cbn [app]. rewrite splitlines_from_cons, app_nil_r.
    destruct rest; reflexivity.
  - cbn [app]. rewrite splitlines_from_cons, Hc, IH.
    now rewrite <- app_assoc.
Qed.

Lemma splitlines_join (parts : list str) :
  parts <> [] -> Forall no_linebreak parts ->
  splitlines (join [LF] parts ++ [LF]) = parts.
Proof.
  unfold splitlines. intros Hne Hall.
  induction Hall as [|x parts Hx Hparts IH]; [contradiction|].
  destruct parts as [|y parts].
  - cbn [join]. now rewrite (splitlines_from_line x [] [] Hx).
  - cbn [join]. rewrite <- !app_assoc. cbn [app].
    rewrite (splitlines_from_line x _ [] Hx). cbn [app]. f_equal.
    apply IH. discriminate.
Qed.

(** *** The shape of the output *)

Lemma entry_lines_snoc (entries : list (str * str)) (d u : str) :
  entry_lines (entries ++ [(d, u)]) = entry_lines entries ++ [d; u].
Proof. unfold entry_lines. rewrite flat_map_app. reflexivity. Qed.

Lemma count_entries_snoc (entries : list (str * str)) (d u : str) (c : Counter) :
  count_entries (entries ++ [(d, u)]) c
  = increment (extract_group_title d) (count_entries entries c).
Proof. unfold count_entries. now rewrite fold_left_app. Qed.

Lemma substantive_strip (raw : str) : substantive (strip raw) = substantive raw.
Proof. unfold substantive. now rewrite strip_idem. Qed.

Lemma find_header_emitted (lines : list str) :
  Forall no_linebreak lines -> emitted_header (find_header lines).
Proof.
  intros Hall.
  destruct (find_header_spec lines)
    as [[_ ->]|(before & line & after & -> & _ & Hline & ->)].
  - split; [reflexivity|]. split; [reflexivity|].
    unfold no_linebreak, EXTM3U. repeat constructor.
  - apply Forall_app in Hall as [_ Hall]. apply Forall_cons in Hall as [Hl _].
    split; [apply strip_idem|]. split; [exact Hline|].
    apply strip_Forall. now apply dropwhile_Forall.
Qed.

(** The first pass: the output is the header and the lines of kept entries,
    the counts are those of the entries. *)
Lemma main_loop_output (lines keywords : list str) (header : str) (fuel : nat)
      (st' : state) :
  Forall no_linebreak lines ->
  main_loop fuel lines keywords (State 0 [header] ∅) = Some st' ->
  exists entries,
    output_lines st' = header :: entry_lines entries
    /\ Forall (kept_entry keywords) entries
    /\ kept_by_group st' = count_entries entries ∅.
Proof.
  intros Hall.
  apply (main_loop_invariant
           (fun s => exists entries,
                output_lines s = header :: entry_lines entries
                /\ Forall (kept_entry keywords) entries
                /\ kept_by_group s = count_entries entries ∅)).
  - intros s raw Hraw (entries & Hout & Hkept & Hcount).
    destruct (startswith EXTINF (strip raw)) eqn:Hd;
      [|rewrite loop_body_skip by assumption; exists entries; auto].
    destruct (find_stream_url (drop (S (index s)) lines) (S (index s)))
      as [next_index [url|]] eqn:Hf;
      [|rewrite (loop_body_no_url _ _ _ _ _ Hd Hf); exists entries; auto].
    rewrite (loop_body_url _ _ _ _ _ _ Hd Hf).
    destruct (should_keep keywords (extract_group_title (strip raw))) eqn:Hkeep;
      [|exists entries; auto].
    apply find_stream_url_lookup in Hf as (_ & raw_url & Hlook & -> & Hsub).
    exists (entries ++ [(strip raw, strip raw_url)]). cbn [output_lines kept_by_group].
    split; [|split].
    + rewrite Hout, entry_lines_snoc. reflexivity.
    + apply Forall_app. split; [assumption|]. apply Forall_singleton.
      unfold kept_entry; cbn [fst snd].
      rewrite !strip_idem, substantive_strip.
      repeat split; auto; apply strip_Forall.
      * exact (Forall_lookup_1 _ _ _ _ Hall Hraw).
      * exact (Forall_lookup_1 _ _ _ _ Hall Hlook).
    + rewrite Hcount, count_entries_snoc. reflexivity.
  - exists []. repeat split. constructor.
Qed.

(** *** The second pass *)

Lemma header_not_directive (header : str) :
  startswith EXTM3U header = true -> startswith EXTINF header = false.
Proof. intros H. apply startswith_inv in H as [rest ->]. reflexivity. Qed.

Lemma header_no_bom (header : str) :
  startswith EXTM3U header = true -> lstrip_bom header = header.
Proof. intros H. apply startswith_inv in H as [rest ->]. reflexivity. Qed.

(** The emitted header is found again as the header of the output. *)
Lemma find_header_again (header : str) (rest : list str) :
  emitted_header header -> find_header (header :: rest) = header.
Proof.
  intros (Hstrip & Hstart & _). cbn [find_header].
  now rewrite (header_no_bom _ Hstart), Hstrip, Hstart.
Qed.

(** One iteration at the directive line of a kept entry, with its URL on the
    next line: the entry is appended again, unchanged. *)
Lemma loop_body_at_entry (before after keywords : list str) (d u : str)
      (out : list str) (c : Counter) :
  kept_entry keywords (d, u) ->
  loop_body (before ++ d :: u :: after) keywords d (State (length before) out c)
  = State (S (S (length before))) (out ++ [d; u])
          (increment (extract_group_title d) c).
Proof.
  intros (Hd & Hdir & Hkeep & Hu & Hsub & _ & _). cbn [fst snd] in *.
  assert (Hf : find_stream_url
                 (drop (S (length before)) (before ++ d :: u :: after))
                 (S (length before))
               = (S (length before), Some u)).
  { replace (before ++ d :: u :: after) with ((before ++ [d]) ++ u :: after)
      by now rewrite <- app_assoc.
    replace (S (length before)) with (length (before ++ [d])) at 1
      by (rewrite length_app; simpl; lia).
    rewrite drop_app_length.
    destruct (find_stream_url_cases (u :: after) (S (length before)))
      as [(skipped & raw & rest' & E & Hsk & Hraw & Hf)|[Hall _]].
    - destruct skipped as [|s skipped].
      + cbn [app] in E. inversion E; subst. rewrite Hf, Hu. simpl.
        now rewrite Nat.add_0_r.
      + cbn [app] in E. inversion E; subst.
        apply Forall_cons in Hsk as [Hs _]. congruence.
    - apply Forall_cons in Hall as [Hs _]. congruence. }
  assert (Hdir' : startswith EXTINF (strip d) = true) by now rewrite Hd.
  rewrite (loop_body_url _ keywords d (State (length before) out c) _ _ Hdir' Hf).
  cbn [index output_lines kept_by_group].
  now rewrite Hd, Hkeep.
Qed.

Lemma main_loop_over_entries (keywords : list str) (todo : list (str * str)) :
  Forall (kept_entry keywords) todo ->
  forall (before out : list str) (c : Counter),
    main_loop (length todo) (before ++ entry_lines todo) keywords
              (State (length before) out c)
    = Some (State (length before + 2 * length todo)
                  (out ++ entry_lines todo) (count_entries todo c)).
Proof.
  induction 1 as [|[d u] todo Hentry _ IH]; intros before out c.
  - cbn [entry_lines flat_map length main_loop index]. rewrite app_nil_r.
    rewrite (proj2 (lookup_ge_None before (length before))) by lia.
    rewrite app_nil_r. f_equal. f_equal. lia.
  - cbn [entry_lines flat_map fst snd app length main_loop index].
    fold (entry_lines todo).
    rewrite (list_lookup_middle before _ d (length before) eq_refl).
    rewrite (loop_body_at_entry _ _ _ _ _ _ _ Hentry).
    replace (before ++ d :: u :: entry_lines todo)
      with ((before ++ [d; u]) ++ entry_lines todo) by now rewrite <- app_assoc.
    replace (S (S (length before))) with (length (before ++ [d; u]))
      by (rewrite length_app; simpl; lia).
    rewrite IH. rewrite length_app, <- app_assoc. cbn [length app count_entries fold_left fst].
    f_equal. f_equal. lia.
Qed.

(** The second pass over the output of the first gives the same output. *)
Lemma main_loop_again (keywords : list str) (header : str)
      (entries : list (str * str)) :
  emitted_header header ->
  Forall (kept_entry keywords) entries ->
  main_loop (length (header :: entry_lines entries)) (header :: entry_lines entries)
            keywords (State 0 [header] ∅)
  = Some (State (1 + 2 * length entries) (header :: entry_lines entries)
                (count_entries entries ∅)).
Proof.
  intros (Hstrip & Hstart & _) Hall.
  apply main_loop_fuel_mono with (fuel := S (length entries)).
  - cbn [main_loop index lookup list_lookup].
    rewrite loop_body_skip by (rewrite Hstrip; now apply header_not_directive).
    cbn [index output_lines kept_by_group].
    exact (main_loop_over_entries keywords entries Hall [header] [header] ∅).
  - cbn [length]. unfold entry_lines. rewrite (flat_map_constant_length (c := 2)); [lia|].
    reflexivity.
Qed.

Lemma entry_lines_no_linebreak (keywords : list str) (entries : list (str * str)) :
  Forall (kept_entry keywords) entries -> Forall no_linebreak (entry_lines entries).
Proof.
  induction 1 as [|[d u] entries (_ & _ & _ & _ & _ & Hd & Hu) _ IH];
    [constructor|].
  cbn [entry_lines flat_map app fst snd] in *. now repeat constructor.
Qed.

(** C3: filtering is idempotent.  [filter_playlist] returns a text and kept
    counts, and filtering that text again with the same keywords returns the
    same text and the same counts. *)
Theorem filter_playlist_idempotent (text : str) (keywords : list str) :
  exists filtered_text kept,
    filter_playlist text keywords = Some (filtered_text, kept)
    /\ filter_playlist filtered_text keywords = Some (filtered_text, kept).
Proof.
  unfold filter_playlist at 1. unfold filter_playlist_fuel.
  set (lines := splitlines text). set (header := find_header lines).
  assert (Hlines : Forall no_linebreak lines) by apply splitlines_no_linebreak.
  assert (Hheader : emitted_header header) by now apply find_header_emitted.
  destruct (main_loop_terminates lines keywords (length lines) (State 0 [header] ∅))
    as [st' Hst']; [lia|].
  rewrite Hst'.
  destruct (main_loop_output _ _ _ _ _ Hlines Hst') as (entries & Hout & Hkept & Hcount).
  exists (join [LF] (output_lines st') ++ [LF]), (kept_by_group st').
  split; [reflexivity|].
  unfold filter_playlist, filter_playlist_fuel.
  rewrite Hout, Hcount.
  rewrite splitlines_join;
    [|discriminate
     |constructor; [apply Hheader|now apply entry_lines_no_linebreak with keywords]].
  rewrite (find_header_again _ _ Hheader).
  now rewrite (main_loop_again keywords header entries Hheader Hkept).
Qed.

(** * Further properties of filter_playlist *)

(** ** The scan as a filter over the entries *)

Lemma entry_lines_cons (d u : str) (entries : list (str * str)) :
  entry_lines ((d, u) :: entries) = d :: u :: entry_lines entries.
Proof. reflexivity. Qed.

Lemma count_entries_cons (e : str * str) (entries : list (str * str)) (c : Counter) :
  count_entries (e :: entries) c = count_entries entries (increment (label_of e) c).
Proof. reflexivity. Qed.

Lemma filter_keeps_cons (keywords : list str) (d u : str)
      (entries : list (str * str)) :
  List.filter (keeps keywords) ((d, u) :: entries)
  = if should_keep keywords (extract_group_title d)
    then (d, u) :: List.filter (keeps keywords) entries
    else List.filter (keeps keywords) entries.
Proof. reflexivity. Qed.

(** The main loop emits the entries of [all_entries] that pass the keep
    test, in order, and counts them. *)
Lemma main_loop_all_entries (lines keywords : list str) (fuel : nat) :
  forall st,
    length lines - index st <= fuel ->
    exists j,
      main_loop fuel lines keywords st
      = Some (State j
                (output_lines st
                 ++ entry_lines (List.filter (keeps keywords)
                                             (all_entries fuel lines (index st))))
                (count_entries (List.filter (keeps keywords)
                                            (all_entries fuel lines (index st)))
                               (kept_by_group st))).
Proof.
  induction fuel as [|fuel IH]; intros [i out kept] Hfuel; cbn [index] in Hfuel.
  - exists i. cbn [main_loop all_entries index output_lines kept_by_group].
    rewrite (proj2 (lookup_ge_None lines i)) by lia.
    cbn. now rewrite app_nil_r.
  - cbn [main_loop all_entries index output_lines kept_by_group].
    destruct (lines !! i) as [raw|] eqn:Hraw;
      [|exists i; cbn; now rewrite app_nil_r].
    destruct (startswith EXTINF (strip raw)) eqn:Hd.
    + destruct (find_stream_url (drop (S i) lines) (S i))
        as [next_index [url|]] eqn:Hf.
      * rewrite (loop_body_url lines keywords raw (State i out kept) _ _ Hd Hf).
        pose proof Hf as Hf'.
        apply find_stream_url_some in Hf' as (skipped & _ & _ & _ & _ & _ & Hn & _).
        cbn [index output_lines kept_by_group]. rewrite filter_keeps_cons.
        destruct (should_keep keywords (extract_group_title (strip raw))).
        -- destruct (IH (State (S next_index) (out ++ [strip raw; url])
                               (increment (extract_group_title (strip raw)) kept)))
             as [j Hj]; [cbn [index]; lia|].
           exists j. rewrite Hj. cbn [index output_lines kept_by_group].
           rewrite entry_lines_cons, count_entries_cons, <- app_assoc.
           reflexivity.
        -- destruct (IH (State (S next_index) out kept)) as [j Hj];
             [cbn [index]; lia|].
           exists j. now rewrite Hj.
      * rewrite (loop_body_no_url lines keywords raw (State i out kept) _ Hd Hf).
        cbn [index output_lines kept_by_group].
        destruct (IH (State (S i) out kept)) as [j Hj]; [cbn [index]; lia|].
        exists j. now rewrite Hj.
    + rewrite loop_body_skip by assumption.
      cbn [index output_lines kept_by_group].
      destruct (IH (State (S i) out kept)) as [j Hj]; [cbn [index]; lia|].
      exists j. now rewrite Hj.
Qed.

Lemma filter_playlist_entries (text : str) (keywords : list str) :
  filter_playlist text keywords
  = Some (join [LF]
               (find_header (splitlines text)
                :: entry_lines (List.filter (keeps keywords) (entries_of text)))
          ++ [LF],
          count_entries (List.filter (keeps keywords) (entries_of text)) ∅).
Proof.
  unfold filter_playlist, filter_playlist_fuel, entries_of.
  destruct (main_loop_all_entries (splitlines text) keywords
              (length (splitlines text))
              (State 0 [find_header (splitlines text)] ∅)) as [j Hj];
    [cbn [index]; lia|].
  rewrite Hj. reflexivity.
Qed.

(** X1: [filter_playlist] is a filter over the entries of the playlist.  The
    text it returns is the header line, then, in the order of the input,
    the two lines of every entry whose label passes the keep test, each
    followed by a newline; the counts are those of the same entries. *)
Theorem filter_playlist_is_filter (text : str) (keywords : list str) :
  filter_playlist text keywords
  = Some (join [LF]
               (find_header (splitlines text)
                :: entry_lines (List.filter (keeps keywords) (entries_of text)))
          ++ [LF],
          count_entries (List.filter (keeps keywords) (entries_of text)) ∅).
Proof. apply filter_playlist_entries. Qed.

(** ** The entries and the input lines *)

(** The look-ahead from line [i]: the lines it passes over, the line it
    stops at, and the lines left after it. *)
Lemma find_stream_url_drop (lines : list str) (i next_index : nat) (url : str) :
  find_stream_url (drop (S i) lines) (S i) = (next_index, Some url) ->
  exists skipped raw_url,
    drop (S i) lines = skipped ++ raw_url :: drop (S next_index) lines
    /\ Forall (fun r => substantive r = false) skipped
    /\ substantive raw_url = true
    /\ url = strip raw_url
    /\ next_index = S i + length skipped
    /\ lines !! next_index = Some raw_url.
Proof.
  intros Hf. pose proof Hf as Hlook.
  apply find_stream_url_lookup in Hlook as (_ & raw_url' & Hlook & _ & _).
  apply find_stream_url_some in Hf as (skipped & raw_url & rest' & E & Hsk & Hsub & -> & ->).
  assert (raw_url' = raw_url) as ->.
  { rewrite <- lookup_drop, E in Hlook.
    rewrite (list_lookup_middle skipped rest' raw_url (length skipped) eq_refl) in Hlook.
    congruence. }
  exists skipped, raw_url. repeat split; auto.
  rewrite E. f_equal. f_equal.
  replace (S (S i + length skipped)) with (S i + S (length skipped)) by lia.
  rewrite <- drop_drop, E.
  replace (skipped ++ raw_url :: rest') with ((skipped ++ [raw_url]) ++ rest')
    by now rewrite <- app_assoc.
  replace (S (length skipped)) with (length (skipped ++ [raw_url]))
    by (rewrite length_app; simpl; lia).
  now rewrite drop_app_length.
Qed.

Lemma all_entries_paired (lines : list str) (fuel : nat) :
  Forall no_linebreak lines ->
  forall i, Forall paired_entry (all_entries fuel lines i).
Proof.
  intros Hall. induction fuel as [|fuel IH]; intros i; cbn [all_entries];
    [constructor|].
  destruct (lines !! i) as [raw|] eqn:Hraw; [|constructor].
  destruct (startswith EXTINF (strip raw)) eqn:Hd; [|apply IH].
  destruct (find_stream_url (drop (S i) lines) (S i)) as [n [url|]] eqn:Hf;
    [|apply IH].
  apply find_stream_url_drop in Hf as (skipped & raw_url & _ & _ & Hsub & -> & _ & Hlook).
  constructor; [|apply IH].
  unfold paired_entry; cbn [fst snd]. rewrite !strip_idem, substantive_strip.
  repeat split; auto; apply strip_Forall.
  - exact (Forall_lookup_1 _ _ _ _ Hall Hraw).
  - exact (Forall_lookup_1 _ _ _ _ Hall Hlook).
Qed.

(** The lines of the entries are stripped input lines, in input order and
    none used twice. *)
Lemma all_entries_sublist (lines : list str) (fuel : nat) :
  forall i,
    sublist (entry_lines (all_entries fuel lines i)) (map strip (drop i lines)).
Proof.
  induction fuel as [|fuel IH]; intros i; cbn [all_entries];
    [apply sublist_nil_l|].
  destruct (lines !! i) as [raw|] eqn:Hraw; [|apply sublist_nil_l].
  rewrite (drop_S _ _ _ Hraw). cbn [map].
  destruct (startswith EXTINF (strip raw)) eqn:Hd;
    [|apply sublist_cons, IH].
  destruct (find_stream_url (drop (S i) lines) (S i)) as [n [url|]] eqn:Hf;
    [|apply sublist_cons, IH].
  apply find_stream_url_drop in Hf as (skipped & raw_url & E & _ & _ & -> & _ & _).
  rewrite entry_lines_cons, E, map_app. cbn [map].
  apply sublist_skip, sublist_inserts_l, sublist_skip, IH.
Qed.

Lemma filter_sublist {A : Type} (f : A -> bool) (l : list A) :
  sublist (List.filter f l) l.
Proof.
  induction l as [|x l IH]; cbn [List.filter]; [constructor|].
  destruct (f x); [now apply sublist_skip|now apply sublist_cons].
Qed.

Lemma entry_lines_sublist (l1 l2 : list (str * str)) :
  sublist l1 l2 -> sublist (entry_lines l1) (entry_lines l2).
Proof.
  induction 1 as [|[d u] l1 l2 _ IH|[d u] l1 l2 _ IH].
  - constructor.
  - rewrite !entry_lines_cons. now apply sublist_skip, sublist_skip.
  - rewrite entry_lines_cons. now apply sublist_cons, sublist_cons.
Qed.

Lemma entry_lines_length (entries : list (str * str)) :
  length (entry_lines entries) = 2 * length entries.
Proof.
  unfold entry_lines. rewrite (flat_map_constant_length (c := 2)); [lia|reflexivity].
Qed.

(** ** The counts *)

Lemma increment_lookup (key g : str) (c : Counter) :
  increment key c !! g
  = if decide (key = g) then Some (S (default 0 (c !! key))) else c !! g.
Proof. unfold increment. apply lookup_insert. Qed.

Lemma label_count_cons (e : str * str) (entries : list (str * str)) (g : str) :
  label_count (e :: entries) g
  = if decide (label_of e = g) then S (label_count entries g)
    else label_count entries g.
Proof.
  unfold label_count. cbn [List.filter].
  destruct (decide (label_of e = g)) as [E|E].
  - now rewrite (bool_decide_eq_true_2 _ E).
  - now rewrite (bool_decide_eq_false_2 _ E).
Qed.

(** The count of a label after counting [entries] on top of [c]. *)
Lemma count_entries_lookup (entries : list (str * str)) (g : str) :
  forall c : Counter,
    count_entries entries c !! g
    = match label_count entries g with
      | O => c !! g
      | S n => Some (S n + default 0 (c !! g))
      end.
Proof.
  induction entries as [|e entries IH]; intros c; [reflexivity|].
  rewrite count_entries_cons, IH, label_count_cons, increment_lookup.
  destruct (decide (label_of e = g)) as [->|Hne].
  - destruct (label_count entries g); cbn [default]; unfold id; f_equal; lia.
  - reflexivity.
Qed.

Lemma label_count_filter_keeps (keywords : list str) (entries : list (str * str))
      (g : str) :
  label_count (List.filter (keeps keywords) entries) g
  = if should_keep keywords g then label_count entries g else 0.
Proof.
  induction entries as [|e entries IH]; cbn [List.filter].
  - now destruct (should_keep keywords g).
  - destruct (keeps keywords e) eqn:Hk; rewrite ?label_count_cons, IH;
      destruct (decide (label_of e = g)) as [<-|Hne]; try reflexivity;
      unfold keeps in Hk; now rewrite Hk.
Qed.

Lemma total_entries_increment (key : str) (c : Counter) :
  total_entries (increment key c) = S (total_entries c).
Proof.
  unfold total_entries, increment.
  destruct (c !! key) as [v|] eqn:Hkey; cbn [default].
  - rewrite <- (insert_delete_eq c key (S v)).
    rewrite map_fold_insert_L; [|intros; lia|apply lookup_delete_eq].
    rewrite (map_fold_delete_L _ _ key v c); [lia|intros; lia|assumption].
  - rewrite map_fold_insert_L; [lia|intros; lia|assumption].
Qed.

Lemma total_entries_count (entries : list (str * str)) :
  forall c : Counter,
    total_entries (count_entries entries c) = total_entries c + length entries.
Proof.
  induction entries as [|e entries IH]; intros c; cbn [length];
    [cbn; lia|].
  rewrite count_entries_cons, IH, total_entries_increment. lia.
Qed.

Lemma kept_lookup (keywords : list str) (entries : list (str * str)) (g : str) :
  count_entries (List.filter (keeps keywords) entries) ∅ !! g
  = if should_keep keywords g
    then match label_count entries g with
         | O => None
         | S n => Some (S n)
         end
    else None.
Proof.
  rewrite count_entries_lookup, label_count_filter_keeps, lookup_empty.
  destruct (should_keep keywords g); [|reflexivity].
  destruct (label_count entries g); [reflexivity|].
  cbn [default]. unfold id. f_equal. lia.
Qed.

(** ** The output, split into lines again *)

Lemma paired_entry_kept (keywords : list str) (e : str * str) :
  kept_entry keywords e <-> paired_entry e /\ keeps keywords e = true.
Proof.
  unfold kept_entry, paired_entry, keeps, label_of. tauto.
Qed.

Lemma entry_lines_paired_no_linebreak (entries : list (str * str)) :
  Forall paired_entry entries -> Forall no_linebreak (entry_lines entries).
Proof.
  induction 1 as [|[d u] entries (_ & _ & _ & _ & Hd & Hu) _ IH]; [constructor|].
  rewrite entry_lines_cons. cbn [fst snd] in *. now repeat constructor.
Qed.

Lemma Forall_filter_paired (f : str * str -> bool) (entries : list (str * str)) :
  Forall paired_entry entries -> Forall paired_entry (List.filter f entries).
Proof.
  induction 1 as [|e entries He _ IH]; cbn [List.filter]; [constructor|].
  destruct (f e); [now constructor|assumption].
Qed.

Lemma entries_of_paired (text : str) : Forall paired_entry (entries_of text).
Proof. apply all_entries_paired, splitlines_no_linebreak. Qed.

Lemma header_emitted (text : str) : emitted_header (find_header (splitlines text)).
Proof. apply find_header_emitted, splitlines_no_linebreak. Qed.

(** The lines of a text made of a header and entries are that header and
    the lines of these entries. *)
Lemma splitlines_output (header : str) (entries : list (str * str)) :
  emitted_header header -> Forall paired_entry entries ->
  splitlines (join [LF] (header :: entry_lines entries) ++ [LF])
  = header :: entry_lines entries.
Proof.
  intros (_ & _ & Hh) Hall. apply splitlines_join; [discriminate|].
  constructor; [assumption|now apply entry_lines_paired_no_linebreak].
Qed.

Lemma find_stream_url_next (before after : list str) (d u : str) :
  strip u = u -> substantive u = true ->
  find_stream_url (drop (S (length before)) (before ++ d :: u :: after))
                  (S (length before))
  = (S (length before), Some u).
Proof.
  intros Hu Hsub.
  replace (before ++ d :: u :: after) with ((before ++ [d]) ++ u :: after)
    by now rewrite <- app_assoc.
  replace (S (length before)) with (length (before ++ [d])) at 1
    by (rewrite length_app; simpl; lia).
  rewrite drop_app_length.
  destruct (find_stream_url_cases (u :: after) (S (length before)))
    as [(skipped & raw & rest' & E & Hsk & Hraw & Hf)|[Hall _]].
  - destruct skipped as [|s skipped]; cbn [app] in E; inversion E; subst.
    + rewrite Hf, Hu. simpl. now rewrite Nat.add_0_r.
    + apply Forall_cons in Hsk as [Hs _]. congruence.
  - apply Forall_cons in Hall as [Hs _]. congruence.
Qed.

(** Scanning lines that are the lines of entries gives these entries back. *)
Lemma all_entries_over_entries (todo : list (str * str)) :
  Forall paired_entry todo ->
  forall (fuel : nat) (before : list str),
    length todo <= fuel ->
    all_entries fuel (before ++ entry_lines todo) (length before) = todo.
Proof.
  induction 1 as [|[d u] todo (Hd & Hdir & Hu & Hsub & _ & _) _ IH];
    intros fuel before Hfuel; cbn [fst snd] in *.
  - destruct fuel; cbn [all_entries entry_lines flat_map]; [reflexivity|].
    rewrite app_nil_r. now rewrite (proj2 (lookup_ge_None before (length before))) by lia.
  - destruct fuel as [|fuel]; [cbn [length] in Hfuel; lia|].
    cbn [all_entries]. rewrite entry_lines_cons.
    rewrite (list_lookup_middle before _ d (length before) eq_refl).
    rewrite Hd, Hdir, (find_stream_url_next _ _ _ _ Hu Hsub).
    f_equal.
    replace (before ++ d :: u :: entry_lines todo)
      with ((before ++ [d; u]) ++ entry_lines todo) by now rewrite <- app_assoc.
    replace (S (S (length before))) with (length (before ++ [d; u]))
      by (rewrite length_app; simpl; lia).
    apply IH. cbn [length] in Hfuel. lia.
Qed.

Lemma entries_of_output (header : str) (entries : list (str * str)) :
  emitted_header header -> Forall paired_entry entries ->
  entries_of (join [LF] (header :: entry_lines entries) ++ [LF]) = entries.
Proof.
  intros Hh Hall. unfold entries_of. rewrite (splitlines_output _ _ Hh Hall).
  cbn [length all_entries lookup list_lookup].
  destruct Hh as (Hstrip & Hstart & _).
  rewrite Hstrip, (header_not_directive _ Hstart).
  apply (all_entries_over_entries entries Hall _ [header]).
  rewrite entry_lines_length. lia.
Qed.

(** Filtering the output of a filter: the entries kept the first time are
    filtered once more. *)
Lemma filter_playlist_twice (text : str) (keywords keywords' : list str) :
  let header := find_header (splitlines text) in
  let kept_once := List.filter (keeps keywords) (entries_of text) in
  filter_playlist (join [LF] (header :: entry_lines kept_once) ++ [LF]) keywords'
  = Some (join [LF] (header :: entry_lines (List.filter (keeps keywords') kept_once))
          ++ [LF],
          count_entries (List.filter (keeps keywords') kept_once) ∅).
Proof.
  intros header kept_once.
  assert (Hh : emitted_header header) by apply header_emitted.
  assert (Hall : Forall paired_entry kept_once)
    by apply Forall_filter_paired, entries_of_paired.
  rewrite filter_playlist_entries.
  rewrite (entries_of_output _ _ Hh Hall), (splitlines_output _ _ Hh Hall).
  now rewrite (find_header_again _ _ Hh).
Qed.

(** ** What a caller can rely on *)

(** X2: the kept counts are counts of entries per exact label.  A label is a
    key of the counts exactly when it passes the keep test and at least one
    entry of the playlist carries it, and its count is the number of those
    entries; entries with the same label but different directive lines share
    one count. *)
Theorem kept_counts_by_label (text : str) (keywords : list str) :
  exists filtered_text kept,
    filter_playlist text keywords = Some (filtered_text, kept)
    /\ forall label n,
        kept !! label = Some n
        <-> should_keep keywords label = true
            /\ n = label_count (entries_of text) label
            /\ 0 < n.
Proof.
  eexists _, _. split; [apply filter_playlist_entries|].
  intros label n. rewrite kept_lookup.
  destruct (should_keep keywords label);
    [|split; [discriminate|intros [? _]; discriminate]].
  destruct (label_count (entries_of text) label) as [|m].
  - split; [discriminate|]. intros (_ & -> & H). lia.
  - split.
    + intros [= <-]. repeat split. lia.
    + intros (_ & -> & _). reflexivity.
Qed.

Lemma filter_playlist_total (text : str) (keywords : list str) :
  let kept_entries := List.filter (keeps keywords) (entries_of text) in
  let filtered_text :=
    join [LF] (find_header (splitlines text) :: entry_lines kept_entries) ++ [LF] in
  total_entries (count_entries kept_entries ∅) = length kept_entries
  /\ length (splitlines filtered_text) = 1 + 2 * length kept_entries
  /\ (length kept_entries = 0
      <-> filtered_text = find_header (splitlines text) ++ [LF]).
Proof.
  intros kept_entries filtered_text. subst filtered_text.
  assert (Hlines : splitlines (join [LF] (find_header (splitlines text)
                                          :: entry_lines kept_entries) ++ [LF])
                   = find_header (splitlines text) :: entry_lines kept_entries).
  { apply splitlines_output; [apply header_emitted|].
    apply Forall_filter_paired, entries_of_paired. }
  split; [|split].
  - rewrite total_entries_count. unfold total_entries. now rewrite map_fold_empty.
  - rewrite Hlines. cbn [length]. rewrite entry_lines_length. lia.
  - split.
    + intros H. destruct kept_entries; [reflexivity|discriminate].
    + intros H. apply (f_equal splitlines) in H. rewrite Hlines in H.
      assert (Hone : splitlines (join [LF] [find_header (splitlines text)] ++ [LF])
                     = [find_header (splitlines text)]).
      { apply splitlines_join; [discriminate|].
        constructor; [apply header_emitted|constructor]. }
      cbn [join] in Hone. rewrite Hone in H.
      destruct kept_entries as [|[d u] ?]; [reflexivity|discriminate].
Qed.

(** X3: the total that [main] prints, the sum of the kept counts, is the
    number of entries in the filtered text: the text has one header line and
    two lines per counted entry, and the total is zero exactly when the text
    is the header line alone. *)
Theorem total_entries_matches_output (text : str) (keywords : list str) :
  exists filtered_text kept,
    filter_playlist text keywords = Some (filtered_text, kept)
    /\ total_entries kept
       = length (List.filter (keeps keywords) (entries_of text))
    /\ length (splitlines filtered_text) = 1 + 2 * total_entries kept
    /\ (total_entries kept = 0
        <-> filtered_text = find_header (splitlines text) ++ [LF]).
Proof.
  eexists _, _. split; [apply filter_playlist_entries|].
  destruct (filter_playlist_total text keywords) as (Htotal & Hlen & Hzero).
  rewrite Htotal. auto.
Qed.

(** X4: the filter invents nothing and reorders nothing.  The lines of the
    filtered text after its header are stripped lines of the input, in the
    order of the input, each input line used at most once. *)
Theorem output_lines_from_input (text : str) (keywords : list str) :
  exists filtered_text kept,
    filter_playlist text keywords = Some (filtered_text, kept)
    /\ sublist (tail (splitlines filtered_text)) (map strip (splitlines text)).
Proof.
  eexists _, _. split; [apply filter_playlist_entries|].
  rewrite splitlines_output;
    [|apply header_emitted|apply Forall_filter_paired, entries_of_paired].
  cbn [tail]. etrans.
  - apply entry_lines_sublist, filter_sublist.
  - apply (all_entries_sublist (splitlines text) _ 0).
Qed.

(** X5: with an empty keyword list nothing is kept: the result is the header
    line alone and empty counts, whatever the input. *)
Theorem no_keywords_keeps_nothing (text : str) :
  filter_playlist text [] = Some (find_header (splitlines text) ++ [LF], ∅).
Proof.
  rewrite filter_playlist_entries.
  assert (E : List.filter (keeps []) (entries_of text) = []).
  { induction (entries_of text) as [|e l IH]; [reflexivity|exact IH]. }
  now rewrite E.
Qed.

(** X6: the filtered text is a well-formed playlist.  Its lines are a header
    line that starts with [#EXTM3U], then pairs of a directive line whose
    label passes the keep test and a substantive line; every line is
    stripped, none is blank, and the text starts with [#EXTM3U] and ends
    with a newline. *)
Theorem output_well_formed (text : str) (keywords : list str) :
  exists filtered_text kept header entries,
    filter_playlist text keywords = Some (filtered_text, kept)
    /\ splitlines filtered_text = header :: entry_lines entries
    /\ emitted_header header
    /\ Forall (kept_entry keywords) entries
    /\ Forall (fun line => strip line = line /\ line <> [])
              (splitlines filtered_text)
    /\ startswith EXTM3U filtered_text = true
    /\ last filtered_text = Some LF.
Proof.
  set (header := find_header (splitlines text)).
  set (entries := List.filter (keeps keywords) (entries_of text)).
  assert (Hh : emitted_header header) by apply header_emitted.
  assert (Hpaired : Forall paired_entry entries)
    by apply Forall_filter_paired, entries_of_paired.
  assert (Hkept : Forall (kept_entry keywords) entries).
  { apply Forall_forall. intros e He. apply paired_entry_kept. split.
    - rewrite Forall_forall in Hpaired. now apply Hpaired.
    - apply list_elem_of_In, filter_In in He. apply He. }
  eexists _, _, header, entries. split; [apply filter_playlist_entries|].
  fold header entries. rewrite (splitlines_output _ _ Hh Hpaired).
  split; [reflexivity|]. split; [exact Hh|]. split; [exact Hkept|].
  split; [|split].
  - constructor.
    + destruct Hh as (Hstrip & Hstart & _). split; [assumption|].
      intros ->. discriminate.
    + clear Hkept. induction Hpaired as [|[d u] l (Hd & Hdir & Hu & Hsub & _) _ IH];
        [constructor|].
      rewrite entry_lines_cons. cbn [fst snd] in *.
      constructor; [|constructor; [|exact IH]].
      * split; [assumption|]. intros ->. discriminate.
      * split; [assumption|]. intros ->. unfold substantive in Hsub.
        rewrite Hu in Hsub. discriminate.
  - destruct Hh as (_ & Hstart & _).
    apply startswith_inv in Hstart as [rest Hrest].
    cbn [join]. destruct (entry_lines entries); rewrite Hrest, <- ?app_assoc;
      apply startswith_app.
  - apply last_snoc.
Qed.

(** ** Filters with different keyword lists *)

Lemma should_keep_subseteq (keywords keywords' : list str) (label : str) :
  keywords ⊆ keywords' ->
  should_keep keywords label = true -> should_keep keywords' label = true.
Proof.
  intros Hsub H. apply should_keep_spec in H as (k & pre & post & Hin & E).
  apply should_keep_spec. exists k, pre, post. auto.
Qed.

Lemma should_keep_app (keywords keywords' : list str) (label : str) :
  should_keep (keywords ++ keywords') label
  = should_keep keywords label || should_keep keywords' label.
Proof. unfold should_keep. apply existsb_app. Qed.

Lemma filter_implies_sublist {A : Type} (f g : A -> bool) (l : list A) :
  (forall x, f x = true -> g x = true) ->
  sublist (List.filter f l) (List.filter g l).
Proof.
  intros Himp. induction l as [|x l IH]; cbn [List.filter]; [constructor|].
  destruct (f x) eqn:Hf.
  - rewrite (Himp _ Hf). now apply sublist_skip.
  - destruct (g x); [now apply sublist_cons|assumption].
Qed.

Lemma filter_absorb {A : Type} (f g : A -> bool) (l : list A) :
  (forall x, f x = true -> g x = true) ->
  List.filter g (List.filter f l) = List.filter f l.
Proof.
  intros Himp. induction l as [|x l IH]; cbn [List.filter]; [reflexivity|].
  destruct (f x) eqn:Hf; [|assumption].
  cbn [List.filter]. now rewrite (Himp _ Hf), IH.
Qed.

Lemma filter_swap {A : Type} (f g : A -> bool) (l : list A) :
  List.filter g (List.filter f l) = List.filter f (List.filter g l).
Proof.
  induction l as [|x l IH]; cbn [List.filter]; [reflexivity|].
  destruct (f x) eqn:Hf, (g x) eqn:Hg; cbn [List.filter];
    rewrite ?Hf, ?Hg, IH; reflexivity.
Qed.

(** X7: more keywords keep more.  When every keyword of one list is in
    another, the lines kept with the first list are among the lines kept
    with the second, in the same order, and every count of the first is a
    count of the second. *)
Theorem more_keywords_keep_more (text : str) (keywords keywords' : list str) :
  keywords ⊆ keywords' ->
  exists filtered kept filtered' kept',
    filter_playlist text keywords = Some (filtered, kept)
    /\ filter_playlist text keywords' = Some (filtered', kept')
    /\ sublist (splitlines filtered) (splitlines filtered')
    /\ kept ⊆ kept'.
Proof.
  intros Hsub. eexists _, _, _, _.
  split; [apply filter_playlist_entries|]. split; [apply filter_playlist_entries|].
  split.
  - rewrite !splitlines_output;
      try apply header_emitted; try apply Forall_filter_paired, entries_of_paired.
    apply sublist_skip, entry_lines_sublist, filter_implies_sublist.
    intros e. apply should_keep_subseteq, Hsub.
  - apply map_subseteq_spec. intros label n. rewrite !kept_lookup.
    destruct (should_keep keywords label) eqn:Hk; [|discriminate].
    now rewrite (should_keep_subseteq _ _ _ Hsub Hk).
Qed.

(** X7 at the example playlist with the keywords A and A, B. *)
Lemma more_keywords_keep_more_witness :
  exists filtered kept filtered' kept',
    filter_playlist example_playlist [py "A"] = Some (filtered, kept)
    /\ filter_playlist example_playlist [py "A"; py "B"] = Some (filtered', kept')
    /\ sublist (splitlines filtered) (splitlines filtered')
    /\ kept ⊆ kept'.
Proof.
  apply (more_keywords_keep_more example_playlist [py "A"] [py "A"; py "B"]).
  intros k Hk. apply list_elem_of_singleton in Hk as ->. apply list_elem_of_here.
Defined.

(** X8: filters commute.  Filtering with one keyword list and then with
    another gives the same text and counts as filtering in the other order:
    the entries whose label passes both keep tests. *)
Theorem filters_commute (text : str) (keywords keywords' : list str) :
  exists filtered kept filtered' kept',
    filter_playlist text keywords = Some (filtered, kept)
    /\ filter_playlist text keywords' = Some (filtered', kept')
    /\ filter_playlist filtered keywords' = filter_playlist filtered' keywords
    /\ filter_playlist filtered keywords'
       = Some (join [LF]
                    (find_header (splitlines text)
                     :: entry_lines
                          (List.filter (fun e => keeps keywords e && keeps keywords' e)
                                       (entries_of text)))
               ++ [LF],
               count_entries
                 (List.filter (fun e => keeps keywords e && keeps keywords' e)
                              (entries_of text)) ∅).
Proof.
  eexists _, _, _, _.
  split; [apply filter_playlist_entries|]. split; [apply filter_playlist_entries|].
  rewrite !filter_playlist_twice. split.
  - now rewrite filter_swap.
  - assert (E : List.filter (keeps keywords')
                            (List.filter (keeps keywords) (entries_of text))
                = List.filter (fun e => keeps keywords e && keeps keywords' e)
                              (entries_of text)).
    { induction (entries_of text) as [|e l IH]; cbn [List.filter]; [reflexivity|].
      destruct (keeps keywords e); cbn [List.filter andb]; [|exact IH].
      destruct (keeps keywords' e); now rewrite IH. }
    now rewrite E.
Qed.

(** X9: a wider filter leaves a filtered playlist alone.  When every keyword
    of the first list is in the second, filtering the output of the first
    filter with the second list returns that output and its counts
    unchanged. *)
Theorem wider_filter_is_identity (text : str) (keywords keywords' : list str) :
  keywords ⊆ keywords' ->
  exists filtered kept,
    filter_playlist text keywords = Some (filtered, kept)
    /\ filter_playlist filtered keywords' = Some (filtered, kept).
Proof.
  intros Hsub. eexists _, _. split; [apply filter_playlist_entries|].
  rewrite filter_playlist_twice, filter_absorb; [reflexivity|].
  intros e. apply should_keep_subseteq, Hsub.
Qed.

(** X9 at the example playlist: filtered with A, then with A and B. *)
Lemma wider_filter_is_identity_witness :
  exists filtered kept,
    filter_playlist example_playlist [py "A"] = Some (filtered, kept)
    /\ filter_playlist filtered [py "A"; py "B"] = Some (filtered, kept).
Proof.
  apply (wider_filter_is_identity example_playlist [py "A"] [py "A"; py "B"]).
  intros k Hk. apply list_elem_of_singleton in Hk as ->. apply list_elem_of_here.
Defined.

(** X10: keyword lists add up.  The counts kept with the concatenation of
    two keyword lists are the union of the counts kept with each: a label
    kept by both has the same count in both. *)
Theorem keyword_lists_add_up (text : str) (keywords keywords' : list str) :
  exists filtered kept filtered' kept' filtered_both kept_both,
    filter_playlist text keywords = Some (filtered, kept)
    /\ filter_playlist text keywords' = Some (filtered', kept')
    /\ filter_playlist text (keywords ++ keywords') = Some (filtered_both, kept_both)
    /\ kept_both = kept ∪ kept'
    /\ sublist (splitlines filtered) (splitlines filtered_both)
    /\ sublist (splitlines filtered') (splitlines filtered_both).
Proof.
  eexists _, _, _, _, _, _.
  split; [apply filter_playlist_entries|]. split; [apply filter_playlist_entries|].
  split; [apply filter_playlist_entries|]. split; [|split].
  - apply map_eq. intros label. rewrite lookup_union, !kept_lookup, should_keep_app.
    destruct (should_keep keywords label), (should_keep keywords' label);
      destruct (label_count (entries_of text) label); reflexivity.
  - rewrite !splitlines_output;
      try apply header_emitted; try apply Forall_filter_paired, entries_of_paired.
    apply sublist_skip, entry_lines_sublist, filter_implies_sublist.
    intros e H. unfold keeps in *. rewrite should_keep_app, H. reflexivity.
  - rewrite !splitlines_output;
      try apply header_emitted; try apply Forall_filter_paired, entries_of_paired.
    apply sublist_skip, entry_lines_sublist, filter_implies_sublist.
    intros e H. unfold keeps in *. rewrite should_keep_app, H. apply orb_true_r.
Qed.

(** * Further properties of extract_group_title *)

(** X11: the label is taken from the line and is free of double quotes.  It
    contains no double quote; when it is not empty, the line contains the
    key, the label and a closing double quote, one after the other. *)
Theorem label_from_line (line : str) :
  let label := extract_group_title line in
  Forall (fun c => c <> DQUOTE) label
  /\ (label <> [] ->
      contains (GROUP_TITLE_KEY ++ label ++ [DQUOTE]) line = true).
Proof.
  intros label. subst label.
  destruct (extract_group_title_spec line) as [[_ ->]|(pre & (post & E & Hg) & _)].
  - split; [constructor|]. intros H. contradiction.
  - split; [assumption|]. intros _. rewrite E at 2.
    replace (pre ++ GROUP_TITLE_KEY ++ extract_group_title line ++ [DQUOTE] ++ post)
      with (pre ++ (GROUP_TITLE_KEY ++ extract_group_title line ++ [DQUOTE]) ++ post)
      by now rewrite <- !app_assoc.
    apply contains_app.
Qed.

(** The key does not overlap itself: an occurrence of the key that starts
    before another one ends before it. *)
Lemma key_no_overlap (pre0 pre r0 r : str) :
  pre0 ++ GROUP_TITLE_KEY ++ r0 = pre ++ GROUP_TITLE_KEY ++ r ->
  length pre0 < length pre ->
  contains GROUP_TITLE_KEY pre = true.
Proof.
  intros E Hlen.
  destruct (app_eq_app _ _ _ _ E) as [m [[-> _]|[-> Hm]]].
  - rewrite length_app in Hlen. lia.
  - clear E. assert (Hne : m <> []).
    { intros ->. rewrite app_nil_r in Hlen. lia. }
    clear Hlen. vm_compute GROUP_TITLE_KEY in Hm.
    do 13 (destruct m as [|? m];
           [first [contradiction|cbn [app] in Hm; discriminate Hm]|]).
    cbn [app] in Hm. injection Hm as <- <- <- <- <- <- <- <- <- <- <- <- <- _.
    apply (contains_app GROUP_TITLE_KEY pre0 m).
Qed.

(** X12: a label written into a line is read back.  For a label without
    double quotes, written after the key and closed by a double quote, with
    no occurrence of the key earlier in the line, [extract_group_title]
    returns that label, whatever follows it. *)
Theorem label_round_trip (pre label post : str) :
  forallb (fun c => negb (N.eqb c DQUOTE)) label = true ->
  contains GROUP_TITLE_KEY pre = false ->
  extract_group_title (pre ++ GROUP_TITLE_KEY ++ label ++ [DQUOTE] ++ post) = label.
Proof.
  intros Hlabel Hpre.
  assert (Hg : Forall (fun c => c <> DQUOTE) label).
  { apply forallb_Forall in Hlabel. eapply Forall_impl; [exact Hlabel|].
    intros c Hc. apply negb_true_iff in Hc. now apply N.eqb_neq. }
  set (line := pre ++ GROUP_TITLE_KEY ++ label ++ [DQUOTE] ++ post).
  assert (Hm : matches_at line pre label) by (exists post; auto).
  unfold extract_group_title.
  destruct (search_spec line) as [[_ Hnone]|(pre0 & g0 & -> & Hm0 & Hmin)].
  - now apply Hnone in Hm.
  - pose proof (Hmin _ _ Hm) as Hle.
    destruct (Nat.eq_dec (length pre0) (length pre)) as [Heq|Hne].
    + exact (matches_at_unique _ _ _ _ _ Hm0 Hm Heq).
    + destruct Hm0 as (post0 & E0 & _). unfold line in E0.
      symmetry in E0. apply key_no_overlap in E0; [congruence|lia].
Qed.

(** X12 at a directive line with a quoted attribute before the group-title
    and another group-title after it. *)
Lemma label_round_trip_witness :
  extract_group_title
    ((py "#EXTINF:-1 tvg-id=" ++ quoted (py "c1") ++ py " ")
       ++ GROUP_TITLE_KEY ++ py "News" ++ [DQUOTE]
       ++ (py " group-title=" ++ quoted (py "Other") ++ py ",One"))
  = py "News".
Proof.
  exact (label_round_trip (py "#EXTINF:-1 tvg-id=" ++ quoted (py "c1") ++ py " ")
                          (py "News")
                          (py " group-title=" ++ quoted (py "Other") ++ py ",One")
                          eq_refl eq_refl).
Defined.

(** * Further properties of fetch_text *)

Section FetcherAttempts.

Context {World : Type}.
Variable urlopen : str -> nat -> World -> attempt * World.
Variable decode : list N -> str.
Variable timeout : nat.

(** X13: an exception the loop does not catch ends the fallback.
    [fetch_text] lets an exception through exactly when, after attempts that
    all failed with caught errors, one attempt raises an exception of
    another class; the sources after it are not attempted, and no
    [RuntimeError] replaces the exception. *)
Theorem fetch_text_uncaught_aborts (urls : list str) (w : World) (exc : exn)
        (w' : World) :
  fetch_text urlopen decode timeout urls w = (Propagated exc, w')
  <-> exists failed url rest w1 last1,
      urls = failed ++ url :: rest
      /\ attempts_fail urlopen timeout failed w None w1 last1
      /\ urlopen url timeout w1 = (Raises exc, w')
      /\ is_caught exc = false.
Proof.
  split.
  - intros E. pose proof (fetch_loop_cases urlopen decode timeout urls w None) as Hc.
    unfold fetch_text in E. now rewrite E in Hc.
  - intros (failed & url & rest & w1 & last1 & -> & Hfail & Hopen & Hcaught).
    unfold fetch_text.
    rewrite (fetch_loop_after_failures _ decode _ _ (url :: rest) _ _ _ _ Hfail).
    cbn [fetch_loop]. now rewrite Hopen, Hcaught.
Qed.

Lemma fetch_loop_logged (urls : list str) :
  forall (last_error : option exn) (w : World) (log : list str),
    let (r, wl) := fetch_loop (logged urlopen) decode timeout urls last_error (w, log) in
    fetch_loop urlopen decode timeout urls last_error w = (r, fst wl)
    /\ exists attempted rest,
        urls = attempted ++ rest
        /\ snd wl = log ++ attempted
        /\ match r with
           | Returned _ url => last attempted = Some url
           | RuntimeError _ _ => rest = []
           | Propagated _ => attempted <> []
           end.
Proof.
  induction urls as [|url urls IH]; intros last_error w log.
  - cbn [fetch_loop fst snd]. split; [reflexivity|].
    exists [], []. rewrite !app_nil_r.
    unfold raise_after_loop. destruct last_error; repeat split.
  - cbn [fetch_loop]. unfold logged at 1. cbn [fst snd].
    destruct (urlopen url timeout w) as [[raw|exc] w1] eqn:Hopen.
    + cbn [fst snd]. split; [reflexivity|]. exists [url], urls. auto.
    + destruct (is_caught exc) eqn:Hcaught.
      * specialize (IH (Some exc) w1 (log ++ [url])).
        destruct (fetch_loop (logged urlopen) decode timeout urls (Some exc)
                             (w1, log ++ [url])) as [r wl].
        destruct IH as (Hrun & attempted & rest & -> & Hlog & Hr).
        split; [exact Hrun|]. exists (url :: attempted), rest.
        split; [reflexivity|]. split; [now rewrite Hlog, <- app_assoc|].
        destruct r as [text good| |]; [|exact Hr|discriminate].
        destruct attempted; [discriminate|exact Hr].
      * cbn [fst snd]. split; [reflexivity|]. exists [url], urls.
        split; [reflexivity|]. split; [reflexivity|discriminate].
Qed.

(** X14: the attempts of [fetch_text] are a prefix of the sources.  Run on
    the network with a log, it gives the result of the run without the log,
    and the log is an initial part of the source list: no source is
    attempted twice, skipped or taken out of order.  The source returned is
    the last one attempted, and a [RuntimeError] comes only after every
    source was attempted. *)
Theorem fetch_text_attempt_log (urls : list str) (w : World) :
  let (r, wl) := fetch_text (logged urlopen) decode timeout urls (w, []) in
  fetch_text urlopen decode timeout urls w = (r, fst wl)
  /\ exists rest,
      urls = snd wl ++ rest
      /\ match r with
         | Returned _ url => last (snd wl) = Some url
         | RuntimeError _ _ => rest = []
         | Propagated _ => snd wl <> []
         end.
Proof.
  unfold fetch_text.
  pose proof (fetch_loop_logged urls None w []) as H.
  destruct (fetch_loop (logged urlopen) decode timeout urls None (w, [])) as [r wl].
  destruct H as (Hrun & attempted & rest & -> & Hlog & Hr).
  cbn [app] in Hlog. rewrite Hlog. split; [exact Hrun|]. now exists rest.
Qed.

End FetcherAttempts.

(** * Properties of main *)

(** ** The order of the summary *)

Lemma str_leb_total (a b : str) : str_leb a b = true \/ str_leb b a = true.
Proof.
  revert b; induction a as [|x a IH]; intros [|y b]; cbn [str_leb]; auto.
  rewrite (N.compare_antisym x y).
  destruct (N.compare x y); cbn [CompOpp]; auto.
Qed.

Lemma str_leb_antisym (a b : str) :
  str_leb a b = true -> str_leb b a = true -> a = b.
Proof.
  revert b; induction a as [|x a IH]; intros [|y b]; cbn [str_leb];
    try discriminate; [reflexivity|].
  rewrite (N.compare_antisym x y).
  destruct (N.compare x y) eqn:Hc; cbn [CompOpp]; try discriminate.
  apply N.compare_eq in Hc as ->. intros H1 H2. f_equal. now apply IH.
Qed.

Lemma str_leb_trans (a b c : str) :
  str_leb a b = true -> str_leb b c = true -> str_leb a c = true.
Proof.
  revert b c; induction a as [|x a IH]; intros [|y b] [|z c]; cbn [str_leb];
    try discriminate; try reflexivity.
  destruct (N.compare_spec x y) as [->|Hxy|Hxy]; try discriminate.
  - destruct (N.compare z y); try discriminate; destruct (N.compare y z);
      try discriminate; auto; apply IH.
  - destruct (N.compare_spec y z) as [->|Hyz|Hyz]; try discriminate; intros _ _.
    + now rewrite (proj2 (N.compare_lt_iff x z)).
    + rewrite (proj2 (N.compare_lt_iff x z)); [reflexivity|lia].
Qed.

#[global] Instance item_le_total : Total item_le.
Proof.
  intros [g1 n1] [g2 n2]. unfold item_le, item_leb. cbn [fst snd].
  destruct (decide (g1 = g2)) as [->|Hne].
  - rewrite !bool_decide_eq_true_2 by reflexivity.
    destruct (Nat.leb_spec n1 n2); [now left|right]. apply Nat.leb_le. lia.
  - rewrite !bool_decide_eq_false_2 by congruence. apply str_leb_total.
Qed.

#[global] Instance item_le_trans : Transitive item_le.
Proof.
  intros [g1 n1] [g2 n2] [g3 n3]. unfold item_le, item_leb. cbn [fst snd].
  destruct (decide (g1 = g2)) as [->|H12], (decide (g2 = g3)) as [->|H23].
  - rewrite !bool_decide_eq_true_2 by reflexivity.
    intros H1 H2. apply Nat.leb_le in H1, H2. apply Nat.leb_le. lia.
  - rewrite bool_decide_eq_true_2 by reflexivity.
    rewrite !bool_decide_eq_false_2 by congruence. auto.
  - rewrite (bool_decide_eq_true_2 (g3 = g3)) by reflexivity.
    rewrite !bool_decide_eq_false_2 by congruence. auto.
  - rewrite (bool_decide_eq_false_2 (g1 = g2)), (bool_decide_eq_false_2 (g2 = g3))
      by congruence.
    intros H1 H2. destruct (decide (g1 = g3)) as [->|H13].
    + exfalso. apply H12. now apply str_leb_antisym.
    + rewrite bool_decide_eq_false_2 by congruence. eapply str_leb_trans; eauto.
Qed.







(** X16: the warning and the written file.  After a filter, the summary
    holds the warning line, on the error stream and after every other line,
    exactly when the filtered text is the header line alone; otherwise every
    line of the summary goes to the standard output. *)
Theorem warning_iff_header_only (text : str) (keywords : list str)
        (selected_url output_path : str) :
  exists filtered_text kept,
    filter_playlist text keywords = Some (filtered_text, kept)
    /\ (WARNING ∈ summary_lines selected_url output_path kept
        <-> filtered_text = find_header (splitlines text) ++ [LF])
    /\ (filtered_text = find_header (splitlines text) ++ [LF] ->
        last (summary_lines selected_url output_path kept) = Some WARNING)
    /\ (filtered_text <> find_header (splitlines text) ++ [LF] ->
        Forall (fun line => fst line = Stdout)
               (summary_lines selected_url output_path kept)).
Proof.
  eexists _, _. split; [apply filter_playlist_entries|].
  destruct (filter_playlist_total text keywords) as (Htotal & _ & Hzero).
  rewrite <- Htotal in Hzero.
  set (kept := count_entries (List.filter (keeps keywords) (entries_of text)) ∅) in *.
  assert (Hstdout : Forall (fun line : stream * str => fst line = Stdout)
                      (map (fun item : str * nat =>
                              (Stdout, py "  " ++ fst item ++ py ": "
                                       ++ str_of_nat (snd item)))
                           (sorted_items kept))).
  { apply Forall_forall. intros line Hline.
    apply list_elem_of_In, in_map_iff in Hline as (item & <- & _). reflexivity. }
  unfold summary_lines. destruct (Nat.eqb_spec (total_entries kept) 0) as [E|E].
  - split; [|split].
    + split; [intros _; now apply Hzero|]. intros _.
      rewrite !elem_of_app. right. right. apply list_elem_of_here.
    + intros _. rewrite !app_assoc. apply last_snoc.
    + intros H. exfalso. apply H. now apply Hzero.
  - split; [|split].
    + split; [|intros H; exfalso; apply E; now apply Hzero].
      rewrite app_nil_r, elem_of_app. intros [H|H].
      * repeat (apply elem_of_cons in H as [H|H]; [discriminate H|]).
        now apply elem_of_nil in H.
      * rewrite Forall_forall in Hstdout. apply Hstdout in H. discriminate H.
    + intros H. exfalso. apply E. now apply Hzero.
    + intros _. rewrite app_nil_r. apply Forall_app. split; [|exact Hstdout].
      repeat constructor.
Qed.

(** ** A run on the scripted world *)

(** The first source fails, the second answers with the example playlist:
    both are attempted, then the directory is made, the file written and the
    four lines of the summary printed, groups in order. *)
Example scripted_main_completes :
  scripted_main (py "http://good") example_playlist
    (Namespace (Some [py "http://bad"; py "http://good"])
               (Some [py "B"; py "A"]) (py "out/playlist.m3u"))
  = (Completed 0,
     [Opened (py "http://bad"); Opened (py "http://good");
      MadeParent (py "out/playlist.m3u");
      Wrote (py "out/playlist.m3u") example_playlist;
      Printed Stdout (py "source: http://good");
      Printed Stdout (py "output: out/playlist.m3u");
      Printed Stdout (py "kept entries: 2");
      Printed Stdout (py "  A: 1");
      Printed Stdout (py "  B: 1")]).
Proof. vm_compute. reflexivity. Qed.

(** No keyword matches: the header alone is written, the warning goes to the
    error stream, and the run still returns 0. *)
Example scripted_main_warns :
  scripted_main (py "http://good") example_playlist
    (Namespace (Some [py "http://good"]) (Some [py "C"]) (py "playlist.m3u"))
  = (Completed 0,
     [Opened (py "http://good");
      MadeParent (py "playlist.m3u");
      Wrote (py "playlist.m3u") (py "#EXTM3U" ++ [LF]);
      Printed Stdout (py "source: http://good");
      Printed Stdout (py "output: playlist.m3u");
      Printed Stdout (py "kept entries: 0");
      Printed Stderr
              (py "warning: no entries matched the configured group keywords")]).
Proof. vm_compute. reflexivity. Qed.

(** Every source fails: the error of [fetch_text] ends the run after the
    attempts, with nothing made, written or printed. *)
Example scripted_main_fetch_fails :
  scripted_main (py "http://good") example_playlist
    (Namespace (Some [py "http://bad1"; py "http://bad2"]) None (py "playlist.m3u"))
  = (Failed (RaisedRuntimeError
               (py "failed to fetch source playlist: unreachable: http://bad2")
               (Some (Exn URLError (py "unreachable: http://bad2")))),
     [Opened (py "http://bad1"); Opened (py "http://bad2")]).
Proof. vm_compute. reflexivity. Qed.

(** Without options the built-in sources are attempted, in order. *)
Example scripted_main_defaults :
  snd (scripted_main (py "http://good") example_playlist
         (Namespace None (Some []) (py "playlist.m3u")))
  = map Opened DEFAULT_SOURCE_URLS.
Proof. vm_compute. reflexivity. Qed.

(** * Further properties of the scan *)

Lemma find_stream_url_first (skipped rest : list str) (raw_url : str) :
  Forall (fun r => substantive r = false) skipped ->
  substantive raw_url = true ->
  forall n,
    find_stream_url (skipped ++ raw_url :: rest) n
    = (n + length skipped, Some (strip raw_url)).
Proof.
  intros Hsk Hsub. induction Hsk as [|s skipped Hs _ IH]; intros n.
  - cbn [app find_stream_url length]. unfold substantive in Hsub.
    destruct (strip raw_url); [discriminate|].
    apply negb_true_iff in Hsub. rewrite Hsub. f_equal. lia.
  - cbn [app find_stream_url length]. unfold substantive in Hs.
    destruct (strip s) eqn:E.
    + rewrite IH. f_equal. lia.
    + apply negb_false_iff in Hs. rewrite Hs, IH. f_equal. lia.
Qed.

(** X19: the look-ahead goes past directive lines.  A directive line is
    paired with the first substantive line after it, whatever lies between:
    blank lines, comments and other directive lines alike.  The cursor moves
    past that line, so the directive lines in between never head an entry
    of their own. *)
Theorem lookahead_takes_first_substantive (lines keywords : list str) (st : state)
        (raw raw_url : str) (skipped rest : list str) :
  lines !! index st = Some raw ->
  is_directive raw = true ->
  drop (S (index st)) lines = skipped ++ raw_url :: rest ->
  forallb (fun r => negb (substantive r)) skipped = true ->
  substantive raw_url = true ->
  loop_body lines keywords raw st
  = if should_keep keywords (extract_group_title (strip raw))
    then State (S (S (index st + length skipped)))
               (output_lines st ++ [strip raw; strip raw_url])
               (increment (extract_group_title (strip raw)) (kept_by_group st))
    else State (S (S (index st + length skipped)))
               (output_lines st) (kept_by_group st).
Proof.
  intros Hraw Hd E Hskipped Hsub.
  assert (Hsk : Forall (fun r => substantive r = false) skipped).
  { apply forallb_Forall in Hskipped. eapply Forall_impl; [exact Hskipped|].
    intros r Hr. now apply negb_true_iff. }
  assert (Hf : find_stream_url (drop (S (index st)) lines) (S (index st))
               = (S (index st + length skipped), Some (strip raw_url))).
  { rewrite E, (find_stream_url_first _ _ _ Hsk Hsub). reflexivity. }
  exact (loop_body_url lines keywords raw st _ _ Hd Hf).
Qed.

(** X19 at the playlist with two directive lines in a row: the first takes
    the URL after the second. *)
Lemma lookahead_takes_first_substantive_witness :
  loop_body (splitlines orphan_playlist) [py "A"; py "B"] directive_A
            (State 1 [EXTM3U] ∅)
  = State 4 ([EXTM3U] ++ [strip directive_A; strip (py "http://y")])
          (increment (extract_group_title (strip directive_A)) ∅).
Proof.
  exact (lookahead_takes_first_substantive
           (splitlines orphan_playlist) [py "A"; py "B"] (State 1 [EXTM3U] ∅)
           directive_A (py "http://y") [directive_B] []
           eq_refl eq_refl eq_refl eq_refl eq_refl).
Defined.

(** ** Line endings *)

Lemma splitlines_from_line_crlf (line rest cur : str) :
  no_linebreak line ->
  splitlines_from cur (line ++ CR :: LF :: rest)
  = (cur ++ line) :: splitlines_from [] rest.
Proof.
  intros Hline. revert cur.
  induction Hline as [|c line Hc _ IH]; intros cur.
  - cbn [app]. now rewrite splitlines_from_cons, app_nil_r.
  - cbn [app]. rewrite splitlines_from_cons, Hc, IH.
    now rewrite <- app_assoc.
Qed.

Lemma splitlines_from_last (line cur : str) :
  no_linebreak line ->
  splitlines_from cur line
  = match cur ++ line with
    | [] => []
    | _ :: _ => [cur ++ line]
    end.
Proof.
  intros Hline. revert cur.
  induction Hline as [|c line Hc _ IH]; intros cur.
  - cbn [splitlines_from]. rewrite app_nil_r. now destruct cur.
  - rewrite splitlines_from_cons, Hc, IH. now rewrite <- app_assoc.
Qed.

Lemma splitlines_join_crlf (parts : list str) :
  parts <> [] -> Forall no_linebreak parts ->
  splitlines (join [CR; LF] parts ++ [CR; LF]) = parts.
Proof.
  unfold splitlines. intros Hne Hall.
  induction Hall as [|x parts Hx Hparts IH]; [contradiction|].
  destruct parts as [|y parts].
  - cbn [join]. now rewrite (splitlines_from_line_crlf x [] [] Hx).
  - cbn [join]. rewrite <- !app_assoc. cbn [app].
    rewrite (splitlines_from_line_crlf x _ [] Hx). cbn [app]. f_equal.
    apply IH. discriminate.
Qed.

Lemma splitlines_join_open (parts : list str) (final : str) :
  Forall no_linebreak parts -> no_linebreak final -> final <> [] ->
  splitlines (join [LF] (parts ++ [final])) = parts ++ [final].
Proof.
  unfold splitlines. intros Hall Hfinal Hne.
  induction Hall as [|x parts Hx Hparts IH].
  - cbn [app join]. rewrite (splitlines_from_last final [] Hfinal). cbn [app].
    destruct final; [contradiction|reflexivity].
  - cbn [app]. destruct (parts ++ [final]) as [|y l] eqn:E;
      [destruct parts; discriminate|].
    change (join [LF] (x :: y :: l)) with (x ++ LF :: join [LF] (y :: l)).
    rewrite (splitlines_from_line x _ [] Hx). cbn [app]. f_equal.
    exact IH.
Qed.

(** X20: line endings do not matter.  A playlist written with CR LF line
    ends is filtered like the same lines written with LF, and so is one
    whose last, non-empty line has no line end; in each case the lines read
    are the lines written. *)
Theorem line_endings_do_not_matter (parts : list str) (final : str)
        (keywords : list str) :
  forallb (fun line => forallb (fun c => negb (islinebreak c)) line)
          (parts ++ [final]) = true ->
  splitlines (join [LF] (parts ++ [final]) ++ [LF]) = parts ++ [final]
  /\ filter_playlist (join [CR; LF] (parts ++ [final]) ++ [CR; LF]) keywords
     = filter_playlist (join [LF] (parts ++ [final]) ++ [LF]) keywords
  /\ (final <> [] ->
      filter_playlist (join [LF] (parts ++ [final])) keywords
      = filter_playlist (join [LF] (parts ++ [final]) ++ [LF]) keywords).
Proof.
  intros H.
  assert (Hall : Forall no_linebreak (parts ++ [final])).
  { apply forallb_Forall in H. eapply Forall_impl; [exact H|].
    intros line Hline. apply forallb_Forall in Hline.
    eapply Forall_impl; [exact Hline|]. intros c Hc. now apply negb_true_iff. }
  assert (Hne : parts ++ [final] <> []) by (destruct parts; discriminate).
  pose proof (splitlines_join _ Hne Hall) as Hlf.
  pose proof (splitlines_join_crlf _ Hne Hall) as Hcrlf.
  split; [exact Hlf|]. split.
  - unfold filter_playlist, filter_playlist_fuel. now rewrite Hlf, Hcrlf.
  - intros Hfinal. apply Forall_app in Hall as [Hparts Hf].
    apply Forall_cons in Hf as [Hf _].
    pose proof (splitlines_join_open parts final Hparts Hf Hfinal) as Hopen.
    unfold filter_playlist, filter_playlist_fuel. now rewrite Hlf, Hopen.
Qed.

(** X20 at the lines of the example playlist. *)
Lemma line_endings_do_not_matter_witness :
  splitlines (join [LF] ([py "#EXTM3U"; directive_A] ++ [py "http://x"]) ++ [LF])
  = [py "#EXTM3U"; directive_A] ++ [py "http://x"]
  /\ filter_playlist
       (join [CR; LF] ([py "#EXTM3U"; directive_A] ++ [py "http://x"]) ++ [CR; LF])
       [py "A"]
     = filter_playlist
         (join [LF] ([py "#EXTM3U"; directive_A] ++ [py "http://x"]) ++ [LF])
         [py "A"]
  /\ (py "http://x" <> [] ->
      filter_playlist (join [LF] ([py "#EXTM3U"; directive_A] ++ [py "http://x"]))
                      [py "A"]
      = filter_playlist
          (join [LF] ([py "#EXTM3U"; directive_A] ++ [py "http://x"]) ++ [LF])
          [py "A"]).
Proof.
  exact (line_endings_do_not_matter [py "#EXTM3U"; directive_A] (py "http://x")
                                    [py "A"] eq_refl).
Defined.

(** * The header line, whatever precedes it *)

Lemma dropwhile_app_all (p : char -> bool) (l s : str) :
  Forall (fun c => p c = true) l -> dropwhile p (l ++ s) = dropwhile p s.
Proof. induction 1 as [|c l Hc _ IH]; cbn [app dropwhile]; [reflexivity|now rewrite Hc]. Qed.

Lemma strip_ends (s : str) :
  strip s = [] \/ exists body final, strip s = body ++ [final] /\ isspace final = false.
Proof.
  unfold strip, rstrip.
  destruct (dropwhile_head isspace (rev (lstrip s))) as [->|(c & t & -> & Hc)];
    [now left|].
  right. exists (rev t), c. auto.
Qed.

(** The code's normalisation of a line in header form gives its header. *)
Lemma header_form_normalised (line header : str) :
  header_form line header ->
  strip (lstrip_bom line) = header /\ is_header_line line = true.
Proof.
  intros (boms & before & after & body & final & -> & Hboms & Hbefore & Hafter
          & Hstart & Hbody & Hfinal).
  assert (Hhash : exists rest, header = HASH :: rest).
  { apply startswith_inv in Hstart as [rest ->]. now eexists. }
  destruct Hhash as [rest Hrest].
  assert (Hnorm : strip (lstrip_bom (boms ++ before ++ header ++ after)) = header).
  { unfold lstrip_bom. rewrite dropwhile_app_all.
    2: { eapply Forall_impl; [exact Hboms|]. intros c ->. apply N.eqb_refl. }
    rewrite (dropwhile_fixed (N.eqb BOM)).
    2: { right. destruct Hbefore as [|c before Hc _].
         - rewrite Hrest. now eexists _, _.
         - exists c, (before ++ header ++ after). split; [reflexivity|].
           now apply space_not_bom. }
    unfold strip, lstrip. rewrite dropwhile_app_all by assumption.
    rewrite (dropwhile_fixed isspace (header ++ after)).
    2: { right. rewrite Hrest. now eexists _, _. }
    unfold rstrip. rewrite rev_app_distr, dropwhile_app_all by now apply Forall_rev.
    rewrite (dropwhile_fixed isspace (rev header)); [apply rev_involutive|].
    right. rewrite Hbody, rev_unit. now eexists _, _. }
  split; [exact Hnorm|]. unfold is_header_line. now rewrite Hnorm.
Qed.

(** A line the code takes for a header line is in header form. *)
Lemma header_line_form (line : str) :
  is_header_line line = true -> header_form line (strip (lstrip_bom line)).
Proof.
  unfold is_header_line. intros Hstart.
  destruct (dropwhile_split (N.eqb BOM) line) as (boms & Eb & Hboms).
  destruct (strip_split (lstrip_bom line)) as (before & after & Es & Hbefore & Hafter).
  destruct (strip_ends (lstrip_bom line)) as [E|(body & final & E & Hfinal)].
  - rewrite E in Hstart. discriminate.
  - exists boms, before, after, body, final.
    split; [now rewrite <- Es|]. split.
    { eapply Forall_impl; [exact Hboms|]. intros c Hc. symmetry. now apply N.eqb_eq. }
    auto.
Qed.

Lemma not_header_line_form (line : str) :
  is_header_line line = false -> forall header, ~ header_form line header.
Proof.
  intros H header Hform. apply header_form_normalised in Hform as [_ Ht]. congruence.
Qed.

(** C7: a playlist without directive lines is filtered to its header line
    and a newline, with no kept counts.  The header line is what the first
    line in header form carries: the text from the token [#EXTM3U] to the
    last character that is not whitespace, behind any run of byte-order
    marks followed by any run of whitespace; it is [#EXTM3U] when no line is
    in header form, as for empty and whitespace-only input. *)
Theorem no_directive_header_only (text : str) (keywords : list str) :
  let lines := splitlines text in
  let header := find_header lines in
  (forallb (fun line => negb (is_directive line)) lines = true ->
   filter_playlist text keywords = Some (header ++ [LF], ∅))
  /\ ((Forall (fun line => forall h, ~ header_form line h) lines
       /\ header = EXTM3U)
      \/ (exists before line after,
            lines = before ++ line :: after
            /\ Forall (fun l => forall h, ~ header_form l h) before
            /\ header_form line header))
  /\ (forall line h, header_form line h -> find_header (line :: lines) = h)
  /\ (forallb isspace text = true ->
      filter_playlist text keywords = Some (EXTM3U ++ [LF], ∅)).
Proof.
  intros lines header. split; [|split; [|split]].
  - intros H. apply no_directive_result.
    apply forallb_Forall in H. eapply Forall_impl; [exact H|].
    intros line Hline. now apply negb_true_iff.
  - destruct (find_header_spec lines)
      as [[Hnone E]|(before & line & after & E & Hbefore & Hline & Eh)].
    + left. split; [|exact E]. eapply Forall_impl; [exact Hnone|].
      intros l. apply not_header_line_form.
    + right. exists before, line, after. split; [exact E|]. split.
      * eapply Forall_impl; [exact Hbefore|]. intros l. apply not_header_line_form.
      * subst header. rewrite Eh. now apply header_line_form.
  - intros line h Hform. apply header_form_normalised in Hform as [Hnorm Hline].
    cbn [find_header]. unfold is_header_line in Hline. now rewrite Hline.
  - intros H. apply forallb_Forall in H.
    destruct (blank_input_lines text H) as [Hnone Hheader].
    rewrite (no_directive_result text keywords Hnone). now rewrite Hheader.
Qed.

(** C7 at three inputs: a header line behind byte-order marks and blanks on
    the second line, the empty text, and a text of blanks and line breaks. *)
Lemma no_directive_header_only_witness :
  filter_playlist bom_playlist [py "A"] = Some (py "#EXTM3U x=1" ++ [LF], ∅)
  /\ filter_playlist [] [py "A"] = Some (py "#EXTM3U" ++ [LF], ∅)
  /\ filter_playlist (py "  " ++ [LF; CR; LF] ++ py " ") [py "A"]
     = Some (py "#EXTM3U" ++ [LF], ∅).
Proof.
  split; [|split].
  - exact (proj1 (no_directive_header_only bom_playlist [py "A"]) eq_refl).
  - exact (proj2 (proj2 (proj2 (no_directive_header_only [] [py "A"]))) eq_refl).
  - exact (proj2 (proj2 (proj2 (no_directive_header_only
                                  (py "  " ++ [LF; CR; LF] ++ py " ") [py "A"])))
                 eq_refl).
Defined.

(** * Directive lines in the look-ahead *)

(** A directive line starts with [#]: it is not substantive. *)
Lemma directive_not_substantive (raw : str) :
  is_directive raw = true -> substantive raw = false.
Proof.
  unfold is_directive, substantive. intros H.
  apply startswith_inv in H as [rest ->]. reflexivity.
Qed.

(** C1, as the code has it.  A directive line with no substantive line after
    it up to the end of the input is not emitted and not counted, the scan
    resumes at the line after it, and the rest of the scan emits and counts
    nothing more.  A following directive line does not end the look-ahead:
    directive lines are not substantive, and a directive line followed by
    any run of blank, comment and directive lines and then a substantive
    line is paired with that line, the cursor moving past it. *)
Theorem directive_without_url_dropped (lines keywords : list str) (raw : str)
        (st : state) :
  lines !! index st = Some raw ->
  is_directive raw = true ->
  (forallb (fun r => negb (substantive r)) (drop (S (index st)) lines) = true ->
   loop_body lines keywords raw st
   = State (S (index st)) (output_lines st) (kept_by_group st)
   /\ exists st',
       (forall fuel, length lines - index st <= fuel ->
                     main_loop fuel lines keywords st = Some st')
       /\ output_lines st' = output_lines st
       /\ kept_by_group st' = kept_by_group st)
  /\ (forall r, is_directive r = true -> substantive r = false)
  /\ (forall skipped raw_url rest,
        drop (S (index st)) lines = skipped ++ raw_url :: rest ->
        forallb (fun r => is_directive r || negb (substantive r)) skipped = true ->
        substantive raw_url = true ->
        loop_body lines keywords raw st
        = if should_keep keywords (extract_group_title (strip raw))
          then State (S (S (index st + length skipped)))
                     (output_lines st ++ [strip raw; strip raw_url])
                     (increment (extract_group_title (strip raw))
                                (kept_by_group st))
          else State (S (S (index st + length skipped)))
                     (output_lines st) (kept_by_group st)).
Proof.
  intros Hraw Hd. split; [|split].
  - intros Hrest. now apply trailing_directive_dropped.
  - apply directive_not_substantive.
  - intros skipped raw_url rest E Hskipped Hsub.
    assert (Hsk : Forall (fun r => substantive r = false) skipped).
    { apply forallb_Forall in Hskipped. eapply Forall_impl; [exact Hskipped|].
      intros r Hr. apply orb_true_iff in Hr as [Hr|Hr].
      - now apply directive_not_substantive.
      - now apply negb_true_iff. }
    assert (Hf : find_stream_url (drop (S (index st)) lines) (S (index st))
                 = (S (index st + length skipped), Some (strip raw_url))).
    { rewrite E, (find_stream_url_first _ _ _ Hsk Hsub). reflexivity. }
    exact (loop_body_url lines keywords raw st _ _ Hd Hf).
Qed.

(** C1, as the code has it, at two playlists.  In the first a directive line
    is followed by a comment, another directive line and a blank line, up to
    the end: nothing more is emitted.  In the second a directive line is
    followed by another directive line and then a URL: the look-ahead goes
    past the second directive line, and the first is emitted with the URL. *)
Lemma directive_without_url_dropped_witness :
  (loop_body trailing_directives [py "A"; py "B"] directive_B
             (State 3 [EXTM3U; directive_A; py "http://x"] {[ py "A" := 1 ]})
   = State 4 [EXTM3U; directive_A; py "http://x"] {[ py "A" := 1 ]}
   /\ exists st',
       (forall fuel, length trailing_directives - 3 <= fuel ->
                     main_loop fuel trailing_directives [py "A"; py "B"]
                               (State 3 [EXTM3U; directive_A; py "http://x"]
                                      {[ py "A" := 1 ]})
                     = Some st')
       /\ output_lines st' = [EXTM3U; directive_A; py "http://x"]
       /\ kept_by_group st' = {[ py "A" := 1 ]})
  /\ loop_body (splitlines orphan_playlist) [py "A"] directive_A
               (State 1 [EXTM3U] ∅)
     = State 4 [EXTM3U; directive_A; py "http://y"] {[ py "A" := 1 ]}.
Proof.
  split.
  - exact (proj1 (directive_without_url_dropped
                    trailing_directives [py "A"; py "B"] directive_B
                    (State 3 [EXTM3U; directive_A; py "http://x"] {[ py "A" := 1 ]})
                    eq_refl eq_refl)
                 eq_refl).
  - exact (proj2 (proj2 (directive_without_url_dropped
                           (splitlines orphan_playlist) [py "A"] directive_A
                           (State 1 [EXTM3U] ∅) eq_refl eq_refl))
                 [directive_B] (py "http://y") [] eq_refl eq_refl eq_refl).
Defined.

(** * Errors that fetch_text does not catch *)

(** C8 as stated fails: the first two sources raise errors and the third
    answers, yet [fetch_text] does not return the answer of the third.  The
    error of the second source is of no caught class (its URL is not valid)
    and goes through; the third source is not attempted. *)
Lemma uncaught_error_counterexample :
  fst (strict_urlopen (py "http://good") (py "not-a-url") (py "#EXTM3U")
                      (py "http://bad1") 30 [])
  = Raises (Exn URLError (py "unreachable: http://bad1"))
  /\ fst (strict_urlopen (py "http://good") (py "not-a-url") (py "#EXTM3U")
                         (py "not-a-url") 30 [])
     = Raises (Exn OtherError (py "unknown url type: not-a-url"))
  /\ fst (strict_urlopen (py "http://good") (py "not-a-url") (py "#EXTM3U")
                         (py "http://good") 30 [])
     = Response (py "#EXTM3U")
  /\ fetch_text (strict_urlopen (py "http://good") (py "not-a-url") (py "#EXTM3U"))
                ascii_decode 30
                [py "http://bad1"; py "not-a-url"; py "http://good"] []
     = (Propagated (Exn OtherError (py "unknown url type: not-a-url")),
        [py "http://bad1"; py "not-a-url"])
  /\ fetch_text (strict_urlopen (py "http://good") (py "not-a-url") (py "#EXTM3U"))
                ascii_decode 30
                [py "http://bad1"; py "not-a-url"; py "http://good"] []
     <> (Returned (py "#EXTM3U") (py "http://good"),
         [py "http://bad1"; py "not-a-url"; py "http://good"]).
Proof.
  repeat split; try reflexivity. intros H. discriminate H.
Qed.

(** C9 as stated fails, both ways.  [fetch_text] fails although a source
    would answer: the source before it raises an error of no caught class.
    And when the only source fails with such an error, no [RuntimeError]
    carrying it is raised: the error itself goes through. *)
Lemma failure_not_exact_counterexample :
  fst (strict_urlopen (py "http://good") (py "not-a-url") (py "#EXTM3U")
                      (py "http://good") 30 [py "not-a-url"])
  = Response (py "#EXTM3U")
  /\ fetch_text (strict_urlopen (py "http://good") (py "not-a-url") (py "#EXTM3U"))
                ascii_decode 30 [py "not-a-url"; py "http://good"] []
     = (Propagated (Exn OtherError (py "unknown url type: not-a-url")),
        [py "not-a-url"])
  /\ fetch_text (strict_urlopen (py "http://good") (py "not-a-url") (py "#EXTM3U"))
                ascii_decode 30 [py "not-a-url"] []
     = (Propagated (Exn OtherError (py "unknown url type: not-a-url")),
        [py "not-a-url"])
  /\ (forall message cause,
        fst (fetch_text (strict_urlopen (py "http://good") (py "not-a-url")
                                        (py "#EXTM3U"))
                        ascii_decode 30 [py "not-a-url"] [])
        <> RuntimeError message cause).
Proof.
  repeat split; try reflexivity. intros message cause H. discriminate H.
Qed.

(** * The effects of main, in order *)

Section MainEffects.

Context {World : Type}.
Variable urlopen : str -> nat -> World -> attempt * World.
Variable decode : list N -> str.
Variable path_text : str -> str.
Variable mkdir_parent : str -> World -> option exn * World.
Variable write_text : str -> str -> World -> option exn * World.
Variable print : stream -> str -> World -> option exn * World.

Lemma fetch_loop_traced (timeout : nat) (urls : list str) :
  forall (last_error : option exn) (w : World) (log : list event),
    let (r, wl) := fetch_loop (traced_urlopen urlopen) decode timeout urls
                              last_error (w, log) in
    fetch_loop urlopen decode timeout urls last_error w = (r, fst wl)
    /\ exists attempted rest,
        urls = attempted ++ rest
        /\ snd wl = log ++ map Opened attempted
        /\ match r with
           | Returned _ url => last attempted = Some url
           | RuntimeError _ _ => rest = []
           | Propagated _ => attempted <> []
           end.
Proof.
  induction urls as [|url urls IH]; intros last_error w log.
  - cbn [fetch_loop fst snd]. split; [reflexivity|].
    exists [], []. cbn [map]. rewrite !app_nil_r.
    unfold raise_after_loop. destruct last_error; repeat split.
  - cbn [fetch_loop]. unfold traced_urlopen at 1. cbn [fst snd].
    destruct (urlopen url timeout w) as [[raw|exc] w1] eqn:Hopen.
    + cbn [fst snd]. split; [reflexivity|]. exists [url], urls. auto.
    + destruct (is_caught exc) eqn:Hcaught.
      * specialize (IH (Some exc) w1 (log ++ [Opened url])).
        destruct (fetch_loop (traced_urlopen urlopen) decode timeout urls (Some exc)
                             (w1, log ++ [Opened url])) as [r wl].
        destruct IH as (Hrun & attempted & rest & -> & Hlog & Hr).
        split; [exact Hrun|]. exists (url :: attempted), rest.
        split; [reflexivity|]. split; [cbn [map]; now rewrite Hlog, <- app_assoc|].
        destruct r as [text good| |]; [|exact Hr|discriminate].
        destruct attempted; [discriminate|exact Hr].
      * cbn [fst snd]. split; [reflexivity|]. exists [url], urls.
        split; [reflexivity|]. split; [reflexivity|discriminate].
Qed.

Lemma print_all_traced (lines : list (stream * str)) :
  forall (w : World) (log : list event),
    let (outcome, wl) := print_all (traced_print print) lines (w, log) in
    print_all print lines w = (outcome, fst wl)
    /\ exists done later,
        lines = done ++ later
        /\ snd wl = log ++ map printed done
        /\ (outcome = None -> later = []).
Proof.
  induction lines as [|[s line] lines IH]; intros w log.
  - cbn [print_all fst snd]. split; [reflexivity|].
    exists [], []. cbn [map app]. rewrite !app_nil_r. repeat split.
  - cbn [print_all]. unfold traced_print at 1. cbn [fst snd].
    destruct (print s line w) as [[exc|] w1] eqn:Hprint.
    + cbn [fst snd]. split; [reflexivity|]. exists [(s, line)], lines.
      split; [reflexivity|]. split; [reflexivity|discriminate].
    + specialize (IH w1 (log ++ [Printed s line])).
      destruct (print_all (traced_print print) lines (w1, log ++ [Printed s line]))
        as [outcome wl].
      destruct IH as (Hrun & done & later & -> & Hlog & Hnone).
      split; [exact Hrun|]. exists ((s, line) :: done), later.
      split; [reflexivity|]. split; [|exact Hnone].
      cbn [map]. unfold printed at 1. cbn [fst snd]. now rewrite Hlog, <- app_assoc.
Qed.

(** X17: the effects of [main], in order.  Run on a world that logs every
    call, [main] ends as it does without the log, and the log reads: attempts
    on an initial part of the sources, in order, then an initial part of
    making the parent directory, writing the filtered text of the fetched
    text to the output path, once, and printing the lines of the summary in
    order.  Nothing is made, written or printed unless [fetch_text] returned
    (its source the last one attempted), and [main] returns, with 0, only
    after all of it. *)
Theorem main_effect_order (args : namespace) (w : World) :
  let urls := or_default (source_urls args) DEFAULT_SOURCE_URLS in
  let keywords := or_default (group_keywords args) DEFAULT_GROUP_KEYWORDS in
  let (r, wl) := main (traced_urlopen urlopen) decode path_text
                      (traced_mkdir mkdir_parent) (traced_write write_text)
                      (traced_print print) args (w, []) in
  main urlopen decode path_text mkdir_parent write_text print args w = (r, fst wl)
  /\ exists attempts rest effects,
      urls = attempts ++ rest
      /\ snd wl = map Opened attempts ++ effects
      /\ (effects = [] ->
          r <> Diverged /\ (forall code, r <> Completed code)
          /\ forall text url w1,
              fetch_text urlopen decode 30 urls w <> (Returned text url, w1))
      /\ (effects <> [] ->
          exists text url w1 filtered_text kept later,
            fetch_text urlopen decode 30 urls w = (Returned text url, w1)
            /\ last attempts = Some url
            /\ filter_playlist text keywords = Some (filtered_text, kept)
            /\ effects ++ later
               = MadeParent (output args)
                 :: Wrote (output args) filtered_text
                 :: map printed (summary_lines url (path_text (output args)) kept)
            /\ (forall code, r = Completed code -> code = 0 /\ later = [])).
Proof.
  intros urls keywords. unfold main. cbv zeta. fold urls keywords. unfold fetch_text.
  pose proof (fetch_loop_traced 30 urls None w []) as Hfetch.
  destruct (fetch_loop (traced_urlopen urlopen) decode 30 urls None (w, []))
    as [r0 [w1 log1]].
  destruct Hfetch as (Hrun & attempts & rest & Hurls & Hlog & Hr0).
  cbn [fst snd app] in Hrun, Hlog. rewrite Hrun. subst log1.
  destruct r0 as [text url|message cause|exc].
  - destruct (filter_playlist text keywords) as [[filtered_text kept]|] eqn:Hfilter;
      [|rewrite filter_playlist_entries in Hfilter; discriminate Hfilter].
    set (summary := summary_lines url (path_text (output args)) kept).
    unfold traced_mkdir at 1. cbn [fst snd].
    destruct (mkdir_parent (output args) w1) as [[exc|] w2].
    + cbn [fst snd]. split; [reflexivity|].
      exists attempts, rest, [MadeParent (output args)].
      split; [exact Hurls|]. split; [reflexivity|]. split; [discriminate|].
      intros _. exists text, url, w1, filtered_text, kept,
        (Wrote (output args) filtered_text :: map printed summary).
      repeat split; try assumption; discriminate.
    + unfold traced_write at 1. cbn [fst snd].
      destruct (write_text (output args) filtered_text w2) as [[exc|] w3].
      * cbn [fst snd]. split; [reflexivity|].
        exists attempts, rest,
          [MadeParent (output args); Wrote (output args) filtered_text].
        split; [exact Hurls|]. split; [now rewrite <- app_assoc|].
        split; [discriminate|].
        intros _. exists text, url, w1, filtered_text, kept, (map printed summary).
        repeat split; try assumption; discriminate.
      * pose proof (print_all_traced summary w3
                      ((map Opened attempts ++ [MadeParent (output args)])
                         ++ [Wrote (output args) filtered_text])) as Hprint.
        destruct (print_all (traced_print print) summary _) as [outcome [w4 log4]].
        destruct Hprint as (Hprun & done & later & Hsum & Hlog4 & Hnone).
        cbn [fst snd] in Hprun, Hlog4. rewrite Hprun. subst log4.
        assert (Heffects :
                  (MadeParent (output args) :: Wrote (output args) filtered_text
                     :: map printed done) ++ map printed later
                  = MadeParent (output args) :: Wrote (output args) filtered_text
                    :: map printed summary).
        { cbn [app]. f_equal. f_equal. now rewrite Hsum, map_app. }
        destruct outcome as [exc|]; cbn [fst snd]; (split; [reflexivity|]);
          exists attempts, rest,
            (MadeParent (output args) :: Wrote (output args) filtered_text
               :: map printed done);
          (split; [exact Hurls|]); (split; [now rewrite <- !app_assoc|]);
          (split; [discriminate|]); intros _;
          exists text, url, w1, filtered_text, kept, (map printed later);
          (split; [reflexivity|]); (split; [exact Hr0|]); (split; [exact Hfilter|]);
          (split; [exact Heffects|]).
        -- discriminate.
        -- intros code [= <-]. split; [reflexivity|]. now rewrite Hnone.
  - cbn [fst snd]. split; [reflexivity|]. exists attempts, rest, [].
    split; [exact Hurls|]. split; [now rewrite app_nil_r|]. split; [|contradiction].
    intros _. repeat split; discriminate.
  - cbn [fst snd]. split; [reflexivity|]. exists attempts, rest, [].
    split; [exact Hurls|]. split; [now rewrite app_nil_r|]. split; [|contradiction].
    intros _. repeat split; discriminate.
Qed.

End MainEffects.
